(** * Nova foundation: execution pipeline and resolution container

    A shallow embedding of [src/foundation/pipeline.ts],
    [src/foundation/container.ts], [src/foundation/application.ts] and
    [src/foundation/logger.ts], with the properties stated about them in
    the specification and further properties of the code. *)

From Stdlib Require Import ZArith Lia String Ascii DecimalString Wellfounded Sorted.
From stdpp Require Import base tactics option numbers list strings gmap fin_maps.

Local Open Scope Z_scope.

(** JavaScript errors are compared by the two things a caller can observe
    on them: the constructor that made them ([kind]) and their [message]. *)
Record JsError := mkError { kind : string; message : string }.

Global Instance JsError_eq_dec : EqDecision JsError.
Proof. solve_decision. Defined.

(* ===================================================================== *)
(** * The execution pipeline ([pipeline.ts])                              *)
(* ===================================================================== *)

Module Pipeline.

(** [throw new Error('Pipeline: next() called multiple times')] *)
Definition DoubleInvocation : JsError :=
  mkError "Error" "Pipeline: next() called multiple times".

(** What the runtime throws when a class is called without [new]
    (the [catch] branch of [dispatch] applied to a class-shaped pipe). *)
Definition ClassCallError (name : string) : JsError :=
  mkError "TypeError" ("Class constructor " +:+ name +:+ " cannot be invoked without 'new'").

Section Run.
Context {T : Type}.

(** The settled state of the promise a pipe or [next] returns. *)
Inductive Outcome :=
| Resolved (v : T)
| Rejected (e : JsError).

(** The body of a pipe, [handle(payload, next)], as the sequence of its
    interactions with the run: it returns a value, throws, or awaits
    [next(v)] and goes on with the settled outcome (a body that does not
    catch goes on with [propagate]).  Bodies await every continuation
    call they make, as all pipes of the repository do. *)
Inductive Body :=
| Return (v : T)
| Throw (e : JsError)
| Await (v : T) (k : Outcome → Body).

Definition propagate (o : Outcome) : Body :=
  match o with
  | Resolved w => Return w
  | Rejected e => Throw e
  end.

(** [Pipe<T> = PipeHandler<T> | (new () => PipeClass<T>)].
    [FnPipe] is a function that cannot be constructed: an arrow function
    or an async function.  [PlainFnPipe] is a function written with the
    keyword [function] (not async): [new] can be applied to it, and runs
    its body with no arguments; that run cannot reach the continuation,
    and what it gives has no [handle] method.  [ClassPipe] is a class
    with a no-argument constructor and a [handle] method; [name] is the
    class name. *)
Inductive Pipe :=
| FnPipe (f : T → Body)
| PlainFnPipe (f : T → Body)
| ClassPipe (name : string) (handle : T → Body).

(** The state of one [thenReturn] run: the captured variable [index],
    and a ghost log of the positions whose body was entered (most recent
    first, one entry each time the body of the function or of [handle] is
    entered), which the program does not keep. *)
Record RunState := mkRun { index : Z; entered : list Z }.

Definition set_index (i : Z) (s : RunState) : RunState :=
  mkRun i (entered s).
Definition enter (i : Z) (s : RunState) : RunState :=
  mkRun (index s) (i :: entered s).

(** Running a body against the continuation [next]. *)
Fixpoint settle (next : T → RunState → Outcome * RunState)
    (b : Body) (s : RunState) : Outcome * RunState :=
  match b with
  | Return v => (Resolved v, s)
  | Throw e => (Rejected e, s)
  | Await v k => let '(o, s') := next v s in settle next (k o) s'
  end.

(** [dispatch(i, value)].  [rest] is [this.pipes] from position [i] on,
    so [i === this.pipes.length] reads [rest = []] and [this.pipes[i]]
    is its head ([dispatch_at] below restores the indexed form).

    <<
    if (i <= index) throw new Error('Pipeline: next() called multiple times');
    index = i;
    if (i === this.pipes.length) return value;
    const pipe = this.pipes[i];
    const next = (val) => dispatch(i + 1, val);
    try {
        const instance = new pipe();
        return await instance.handle(value, next);
    } catch (_e) {
        return await pipe(value, next);
    }
    >> *)
Fixpoint dispatch (rest : list Pipe) (i : Z) (value : T) (s : RunState)
    : Outcome * RunState :=
  if i <=? index s then (Rejected DoubleInvocation, s)
  else
    let s1 := set_index i s in
    match rest with
    | [] => (Resolved value, s1)
    | pipe :: rest' =>
        let next := dispatch rest' (i + 1) in
        match pipe with
        | ClassPipe name handle =>
            (* [new pipe()] succeeds; whatever [handle] throws is caught,
               and the handler then calls the class without [new] *)
            match settle next (handle value) (enter i s1) with
            | (Resolved v, s2) => (Resolved v, s2)
            | (Rejected _e, s2) => (Rejected (ClassCallError name), s2)
            end
        | FnPipe f =>
            (* [new pipe()] throws (not a constructor); the handler
               calls the function *)
            settle next (f value) (enter i s1)
        | PlainFnPipe f =>
            (* [new pipe()] enters the body with no arguments; that run
               throws, or the call of [instance.handle] does; the handler
               calls the function *)
            settle next (f value) (enter i (enter i s1))
        end
    end.

Definition initial : RunState := mkRun (-1) [].

(** [send(payload).through(pipes).thenReturn()], with the final run state. *)
Definition run (pipes : list Pipe) (payload : T) : Outcome * RunState :=
  dispatch pipes 0 payload initial.

Definition thenReturn (pipes : list Pipe) (payload : T) : Outcome :=
  fst (run pipes payload).

(** [dispatch] by position in [this.pipes]. *)
Definition dispatch_at (pipes : list Pipe) (i : nat) (value : T)
    (s : RunState) : Outcome * RunState :=
  dispatch (drop i pipes) (Z.of_nat i) value s.

(** ** Pipes that do not raise

    What such a pipe does with a payload: it ends the chain with a value
    of its own, or forwards a payload once and returns what the rest of
    the chain gives back, possibly transformed. *)
Inductive Step :=
| Stop (v : T)
| Forward (v : T) (after : T → T).

Definition body_of (st : Step) : Body :=
  match st with
  | Stop v => Return v
  | Forward v after =>
      Await v (λ o, match o with
                    | Resolved w => Return (after w)
                    | Rejected e => Throw e
                    end)
  end.

(** The shapes a pipe can be written in. *)
Inductive Shape :=
| AsFunction
| AsPlainFunction
| AsClass (name : string).

Definition pipe_of (sh : Shape) (h : T → Step) : Pipe :=
  match sh with
  | AsFunction => FnPipe (λ v, body_of (h v))
  | AsPlainFunction => PlainFnPipe (λ v, body_of (h v))
  | AsClass name => ClassPipe name (λ v, body_of (h v))
  end.

(** The meaning of a declared list of such pipes, shape left out: each
    one acts on what the previous one forwarded, in declared order. *)
Fixpoint chain (hs : list (T → Step)) (v : T) : T :=
  match hs with
  | [] => v
  | h :: hs' =>
      match h v with
      | Stop w => w
      | Forward w after => after (chain hs' w)
      end
  end.

(** [async (v, next) => next(f(v))] *)
Definition forward (f : T → T) : T → Step := λ v, Forward (f v) id.

(** The declared list [hs], the pipe at position [n] written in the
    shape [shape n]. *)
Definition shaped (shape : nat → Shape) (hs : list (T → Step)) : list Pipe :=
  imap (λ n h, pipe_of (shape n) h) hs.

(** [async (v, next) => { await next(a); return next(b); }] and its
    class-shaped twin's [handle]: the continuation is invoked a second
    time once the first call has resolved; when the first call rejects,
    its error leaves the body at the [await]. *)
Definition twice (a b : T) : T → Body :=
  λ _, Await a (λ o, match o with
                     | Resolved _ => Await b propagate
                     | Rejected e => Throw e
                     end).

(** A pipe of shape [sh] whose body throws [e]. *)
Definition raising (sh : Shape) (e : JsError) : Pipe :=
  match sh with
  | AsFunction => FnPipe (λ _, Throw e)
  | AsPlainFunction => PlainFnPipe (λ _, Throw e)
  | AsClass name => ClassPipe name (λ _, Throw e)
  end.

(** The name of the first class among [shapes]. *)
Fixpoint first_class (shapes : list Shape) : option string :=
  match shapes with
  | [] => None
  | AsClass name :: _ => Some name
  | _ :: shapes' => first_class shapes'
  end.

(** How often the body at position [j] of [pipes] can be entered in one
    run: twice for a function [new] can be applied to, once for any
    other pipe, never outside the list. *)
Definition entries (pipes : list Pipe) (j : Z) : nat :=
  if j <? 0 then 0%nat
  else match pipes !! Z.to_nat j with
       | Some (PlainFnPipe _) => 2%nat
       | Some _ => 1%nat
       | None => 0%nat
       end.

(** How often [j] occurs in a log. *)
Definition occurrences (j : Z) (log : list Z) : nat :=
  length (filter (λ k, k = j) log).

Definition pipes_of (ps : list (Shape * (T → Step))) : list Pipe :=
  map (λ p, pipe_of p.1 p.2) ps.

(** The entered log lists positions in the order they were entered,
    none above the highest index reached. *)
Definition ordered (s : RunState) : Prop :=
  StronglySorted Z.ge (entered s) ∧ Forall (λ j, j ≤ index s) (entered s).

(** In a run of [pipes], no position above the highest index reached has
    been entered, and no position more often than [entries] allows. *)
Definition counted (pipes : list Pipe) (s : RunState) : Prop :=
  (∀ j, index s < j → occurrences j (entered s) = 0%nat)
  ∧ ∀ j, (occurrences j (entered s) ≤ entries pipes j)%nat.

(** The run has not gone past position [n]: the highest index reached is
    at most [n] and every position entered is one of [0 .. n - 1]. *)
Definition within (n : Z) (s : RunState) : Prop :=
  index s ≤ n ∧ Forall (λ j, 0 ≤ j < n) (entered s).

End Run.

Arguments Outcome : clear implicits.
Arguments Step : clear implicits.
Arguments Body : clear implicits.
Arguments Pipe : clear implicits.

(** ** The examples of the specification and of the tests *)

Definition double : Z → Step Z := forward (λ v, v * 2).
Definition square : Z → Step Z := forward (λ v, v * v).
Definition subtractOne : Z → Step Z := forward (λ v, v - 1).

(** [through([double, Square, subtractOne])] *)
Definition mixed : list (Pipe Z) :=
  [pipe_of AsFunction double; pipe_of (AsClass "Square") square;
   pipe_of AsFunction subtractOne].

(** [throw new Error('boom')] *)
Definition boom : JsError := mkError "Error" "boom".

(** [async () => { throw new Error('boom'); }] *)
Definition fail : Pipe Z := FnPipe (λ _, Throw boom).

(** [through([double, Square, subtractOne, fail])] and its equivalents
    written with functions only and with classes only. *)
Definition mixed_failing : list (Pipe Z) := mixed ++ [fail].
Definition functions_failing : list (Pipe Z) :=
  [pipe_of AsFunction double; pipe_of AsFunction square;
   pipe_of AsFunction subtractOne; fail].
Definition classes_failing : list (Pipe Z) :=
  [pipe_of (AsClass "Double") double; pipe_of (AsClass "Square") square;
   pipe_of (AsClass "SubtractOne") subtractOne; ClassPipe "Fail" (λ _, Throw boom)].

End Pipeline.

(* ===================================================================== *)
(** * The resolution container ([container.ts])                           *)
(* ===================================================================== *)

Module Container.

Local Open Scope nat_scope.

(** What the model covers.  Objects are references into a heap, so that
    "the same object" is equality of references.  A class constructor
    stores its arguments and a factory allocates, returns a fixed value
    or throws: neither calls back into the container, and both return.
    Overrides are the own properties of the record passed to [make], an
    ordinary object, so that reading a name from it also finds the
    members of [Object.prototype]; no stored value is [undefined].  Text
    is ASCII.  A resolution that
    recurses without end (in the runtime: until the call stack is
    exhausted) is the computation [None], kept apart from the errors the
    code throws. *)

(** ** Source text of functions

    [getParamNames] and [isClass] read [Function.prototype.toString], so a
    class carries the text of its declaration. *)

(** The characters [\s] matches, within ASCII. *)
Definition is_space (c : ascii) : bool :=
  let n := nat_of_ascii c in
  (n =? 32) || ((9 <=? n) && (n <=? 13)).

Fixpoint strip_prefix (p s : string) : option string :=
  match p, s with
  | EmptyString, _ => Some s
  | String a p', String b s' => if Ascii.eqb a b then strip_prefix p' s' else None
  | String _ _, EmptyString => None
  end.

(** What follows the leftmost occurrence of [p] in [s]. *)
Fixpoint after_first (p s : string) : option string :=
  match strip_prefix p s with
  | Some r => Some r
  | None =>
      match s with
      | EmptyString => None
      | String _ s' => after_first p s'
      end
  end.

(** What follows the first character [c] of [s]. *)
Fixpoint skip_to (c : ascii) (s : string) : option string :=
  match s with
  | EmptyString => None
  | String a s' => if Ascii.eqb a c then Some s' else skip_to c s'
  end.

(** What precedes the first character [c] of [s]. *)
Fixpoint take_to (c : ascii) (s : string) : option string :=
  match s with
  | EmptyString => None
  | String a s' =>
      if Ascii.eqb a c then Some EmptyString
      else match take_to c s' with
           | Some r => Some (String a r)
           | None => None
           end
  end.

Fixpoint drop_spaces (s : string) : string :=
  match s with
  | String a s' => if is_space a then drop_spaces s' else s
  | EmptyString => s
  end.

(** [s.split(c)]: the pieces between the occurrences of [c]. *)
Fixpoint split (c : ascii) (s : string) : list string :=
  match s with
  | EmptyString => [EmptyString]
  | String a s' =>
      if Ascii.eqb a c then EmptyString :: split c s'
      else match split c s' with
           | piece :: pieces => String a piece :: pieces
           | [] => [String a EmptyString]
           end
  end.

(** [Boolean(s)] on a string: the empty string is falsy. *)
Definition truthy (s : string) : bool :=
  match s with EmptyString => false | String _ _ => true end.

(** The capture group of the regular expression of [getParamNames]: the
    word [constructor], white space, characters other than an opening
    parenthesis, an opening parenthesis, white space, then the group
    (characters other than a closing parenthesis) and a closing
    parenthesis.  Nothing before the group crosses an opening
    parenthesis, so the one matched is the first after the word; the
    white space after it is taken whole and the group runs to the first
    closing parenthesis.  When the leftmost occurrence of the word does
    not match, no later one does. *)
Definition argsMatch (fnStr : string) : option string :=
  match after_first "constructor" fnStr with
  | None => None
  | Some r1 =>
      match skip_to "("%char r1 with
      | None => None
      | Some r2 => take_to ")"%char (drop_spaces r2)
      end
  end.

(** [getParamNames(constructor)] on [fnStr = constructor.toString()]:
    no match gives the empty list, a match gives
    [argsMatch[1].split(',').filter(Boolean)]. *)
Definition getParamNames (fnStr : string) : list string :=
  match argsMatch fnStr with
  | None => []
  | Some group => filter (λ s, truthy s = true) (split ","%char group)
  end.

(** The test of [isClass]: the text starts with the word [class] and a
    white space character. *)
Definition starts_as_class (fnStr : string) : bool :=
  match strip_prefix "class" fnStr with
  | Some (String c _) => is_space c
  | _ => false
  end.

(** ** Values, identifiers, bindings *)

(** A value is a primitive, a reference to an object of the heap (two
    references are the same object exactly when their addresses are), or
    an object of the runtime itself: [VNative name] is what reading
    [name] from an empty object literal gives, such as the function
    [Object.prototype.toString] for [toString]. *)
Inductive Value :=
| VStr (s : string)
| VRef (addr : nat)
| VNative (name : string).

(** The object [new cls(...args)] creates. *)
Record Object := mkObject { obj_class : string; obj_args : list Value }.

(** A class: its identity, its name, and the text of its declaration.
    Its constructor stores its arguments. *)
Record Class := mkClass { cls_id : nat; cls_name : string; cls_source : string }.

(** What a factory [() => T] does when called.  A factory does not call
    back into the container. *)
Inductive Recipe :=
| Fresh (cls : string) (args : list Value)   (* () => new cls(...args) *)
| Const (v : Value)                          (* () => v, the same value at every call *)
| Fails (e : JsError).                       (* () => { throw e } *)

Record Factory := mkFactory { fac_id : nat; fac_recipe : Recipe }.

(** [Abstract<T> = string | symbol | (new (...args) => T) | (() => T)] *)
Inductive Abstract :=
| AName (s : string)
| ASymbol (id : nat) (description : string)
| AClass (c : Class)
| AFactory (f : Factory).

(** [Concrete<T> = { value; shared? }].  The type asks for a function as
    [value]; at run time any identifier can be stored, which is what the
    alias branch of [make] is for. *)
Record Concrete := mkConcrete { value : Abstract; shared : bool }.

Global Instance Value_eq_dec : EqDecision Value.
Proof. solve_decision. Defined.
Global Instance Class_eq_dec : EqDecision Class.
Proof. solve_decision. Defined.
Global Instance Recipe_eq_dec : EqDecision Recipe.
Proof. solve_decision. Defined.
Global Instance Factory_eq_dec : EqDecision Factory.
Proof. solve_decision. Defined.
Global Instance Abstract_eq_dec : EqDecision Abstract.
Proof. solve_decision. Defined.

Global Instance Value_countable : Countable Value.
Proof.
  refine (inj_countable'
    (λ v, match v with
          | VStr s => inl s
          | VRef a => inr (inl a)
          | VNative n => inr (inr n)
          end)
    (λ x, match x with
          | inl s => VStr s
          | inr (inl a) => VRef a
          | inr (inr n) => VNative n
          end) _).
  by intros [].
Defined.

Global Instance Recipe_countable : Countable Recipe.
Proof.
  refine (inj_countable'
    (λ r, match r with
          | Fresh c args => inl (c, args)
          | Const v => inr (inl v)
          | Fails e => inr (inr (kind e, message e))
          end)
    (λ x, match x with
          | inl (c, args) => Fresh c args
          | inr (inl v) => Const v
          | inr (inr (k, m)) => Fails (mkError k m)
          end) _).
  by intros [| |[]].
Defined.

Global Instance Abstract_countable : Countable Abstract.
Proof.
  refine (inj_countable'
    (λ a, match a with
          | AName s => inl (inl s)
          | ASymbol i d => inl (inr (i, d))
          | AClass c => inr (inl (cls_id c, cls_name c, cls_source c))
          | AFactory f => inr (inr (fac_id f, fac_recipe f))
          end)
    (λ x, match x with
          | inl (inl s) => AName s
          | inl (inr (i, d)) => ASymbol i d
          | inr (inl (i, n, s)) => AClass (mkClass i n s)
          | inr (inr (i, r)) => AFactory (mkFactory i r)
          end) _).
  by intros [| |[]|[]].
Defined.

(** ** The container and the heap *)

(** The fields of [Container], and the heap of the running program
    ([heap !! a] is the object at address [a]; [new] allocates at
    [length heap]). *)
Record State := mkState {
  resolved : gset Abstract;
  bindings : gmap Abstract Concrete;
  instances : gmap Abstract Value;
  buildStack : list Abstract;
  heap : list Object;
}.

(** [new Container()] in a fresh program. *)
Definition empty : State := mkState ∅ ∅ ∅ [] [].

Definition set_bindings (b : gmap Abstract Concrete) (st : State) : State :=
  mkState (resolved st) b (instances st) (buildStack st) (heap st).
Definition set_instances (i : gmap Abstract Value) (st : State) : State :=
  mkState (resolved st) (bindings st) i (buildStack st) (heap st).
Definition set_resolved (r : gset Abstract) (st : State) : State :=
  mkState r (bindings st) (instances st) (buildStack st) (heap st).

(** [new cls(...args)]: the reference to a fresh object. *)
Definition alloc (cls : string) (args : list Value) (st : State) : Value * State :=
  (VRef (length (heap st)),
   mkState (resolved st) (bindings st) (instances st) (buildStack st)
           (heap st ++ [mkObject cls args])).

Inductive Result (A : Type) :=
| Ok (a : A)
| Threw (e : JsError).
Arguments Ok {A} a.
Arguments Threw {A} e.

(** ** Errors *)

Definition quote : string := String (ascii_of_nat 34) EmptyString.

(** [new Error(`Cannot resolve dependency: "${name}" at index ${index} in ${constructor.name}`)] *)
Definition CannotResolve (name : string) (index : nat) (owner : string) : JsError :=
  mkError "Error"
    ("Cannot resolve dependency: " +:+ quote +:+ name +:+ quote +:+ " at index "
       +:+ NilZero.string_of_uint (Nat.to_uint index) +:+ " in " +:+ owner).

(** [new] applied to a string, a symbol or an arrow function. *)
Definition NotAConstructor : JsError :=
  mkError "TypeError" "constructor is not a constructor".

(** A class called without [new]. *)
Definition ClassCallError (name : string) : JsError :=
  mkError "TypeError" ("Class constructor " +:+ name +:+ " cannot be invoked without 'new'").

(** ** Operations *)

(** [bind(abstract, concrete, shared)] *)
Definition bind (abstract concrete : Abstract) (shared : bool) (st : State) : State :=
  set_bindings (<[abstract := mkConcrete concrete shared]> (bindings st)) st.

(** [singleton(abstract, concrete)] *)
Definition singleton (abstract concrete : Abstract) (st : State) : State :=
  bind abstract concrete true st.

(** [instance(abstract, instance)] *)
Definition instance (abstract : Abstract) (v : Value) (st : State) : State :=
  set_resolved ({[abstract]} ∪ resolved st)
    (set_instances (<[abstract := v]> (instances st)) st).

(** [getConcrete(abstract)] *)
Definition getConcrete (st : State) (abstract : Abstract) : Abstract :=
  match bindings st !! abstract with
  | Some binding => value binding
  | None => abstract
  end.

(** [isShared(abstract)]: [this.bindings.get(abstract)?.shared ?? false] *)
Definition isShared (st : State) (abstract : Abstract) : bool :=
  match bindings st !! abstract with
  | Some binding => shared binding
  | None => false
  end.

(** [typeof x === 'function'] *)
Definition is_function (x : Abstract) : bool :=
  match x with
  | AClass _ | AFactory _ => true
  | AName _ | ASymbol _ _ => false
  end.

(** [isBuildable(concrete, abstract)] *)
Definition isBuildable (concrete abstract : Abstract) : bool :=
  bool_decide (concrete = abstract) || is_function concrete.

(** [has(abstract)] *)
Definition has (st : State) (abstract : Abstract) : bool :=
  bool_decide (is_Some (bindings st !! abstract))
  || bool_decide (is_Some (instances st !! abstract)).

(** [isClass(fn)].  The text of a function that is not a class does not
    start with the word [class]. *)
Definition isClass (fn : Abstract) : bool :=
  match fn with
  | AClass c => starts_as_class (cls_source c)
  | _ => false
  end.

(** [x.toString()] for what [build] passes to [getParamNames]. *)
Definition toString (x : Abstract) : string :=
  match x with
  | AName s => s
  | ASymbol _ d => "Symbol(" +:+ d +:+ ")"
  | AClass c => cls_source c
  | AFactory _ => "() => {}"
  end.

(** [x.name] inside the template of the error message. *)
Definition name_of (x : Abstract) : string :=
  match x with
  | AClass c => cls_name c
  | AFactory _ => ""
  | AName _ | ASymbol _ _ => "undefined"
  end.

(** [(concrete as () => T)()] *)
Definition call (concrete : Abstract) (st : State) : Result Value * State :=
  match concrete with
  | AFactory f =>
      match fac_recipe f with
      | Fresh cls args => let '(v, st') := alloc cls args st in (Ok v, st')
      | Const v => (Ok v, st)
      | Fails e => (Threw e, st)
      end
  | AClass c => (Threw (ClassCallError (cls_name c)), st)
  | AName _ | ASymbol _ _ => (Threw (mkError "TypeError" "concrete is not a function"), st)
  end.

(** [new constructor(...dependencies)] *)
Definition construct (constructor : Abstract) (dependencies : list Value) (st : State)
    : Result Value * State :=
  match constructor with
  | AClass c => let '(v, st') := alloc (cls_name c) dependencies st in (Ok v, st')
  | AFactory _ | AName _ | ASymbol _ _ => (Threw NotAConstructor, st)
  end.

(** A computation that may run out of fuel ([None]), throw or return. *)
Definition Comp (A : Type) : Type := option (Result A * State).

(** The names [Object.prototype] has a member under: every object
    written as a literal answers to them. *)
Definition Object_prototype : list string :=
  ["constructor"; "__defineGetter__"; "__defineSetter__"; "hasOwnProperty";
   "__lookupGetter__"; "__lookupSetter__"; "isPrototypeOf"; "propertyIsEnumerable";
   "toString"; "valueOf"; "__proto__"; "toLocaleString"].

(** [parameters[name]], [None] standing for [undefined]: the own property
    when there is one, and otherwise the member of [Object.prototype]
    under that name, if any. *)
Definition property (parameters : gmap string Value) (name : string) : option Value :=
  match parameters !! name with
  | Some v => Some v
  | None =>
      if bool_decide (name ∈ Object_prototype) then Some (VNative name) else None
  end.

Section Build.
(** [this.make(name)], as [build] calls it: without overrides. *)
Variable make_ : Abstract → State → Comp Value.
Variable parameters : gmap string Value.

(** The callback of [paramNames.map] in [build]:
    [parameters[name] !== undefined], then [this.has(name)], then the
    [throw]. *)
Definition dependency (owner : Abstract) (name : string) (index : nat) (st : State)
    : Comp Value :=
  match property parameters name with
  | Some v => Some (Ok v, st)
  | None =>
      if has st (AName name) then make_ (AName name) st
      else Some (Threw (CannotResolve name index (name_of owner)), st)
  end.

(** [paramNames.map((name, index) => ...)] from position [index] on. *)
Fixpoint dependencies (owner : Abstract) (paramNames : list string) (index : nat)
    (st : State) : Comp (list Value) :=
  match paramNames with
  | [] => Some (Ok [], st)
  | name :: paramNames' =>
      match dependency owner name index st with
      | None => None
      | Some (Threw e, st1) => Some (Threw e, st1)
      | Some (Ok v, st1) =>
          match dependencies owner paramNames' (S index) st1 with
          | None => None
          | Some (Threw e, st2) => Some (Threw e, st2)
          | Some (Ok vs, st2) => Some (Ok (v :: vs), st2)
          end
      end
  end.

(** [build(concrete, parameters)] *)
Definition build (concrete : Abstract) (st : State) : Comp Value :=
  if is_function concrete && negb (isClass concrete) then Some (call concrete st)
  else
    let paramNames := getParamNames (toString concrete) in
    match dependencies concrete paramNames 0 st with
    | None => None
    | Some (Threw e, st1) => Some (Threw e, st1)
    | Some (Ok deps, st1) => Some (construct concrete deps st1)
    end.
End Build.

(** [make(abstract, parameters)].  [fuel] bounds the depth of the nested
    calls; [None] stands for a resolution that recurses without end. *)
Fixpoint make (fuel : nat) (abstract : Abstract) (parameters : gmap string Value)
    (st : State) : Comp Value :=
  match fuel with
  | O => None
  | S fuel' =>
      match instances st !! abstract with
      | Some v => Some (Ok v, st)
      | None =>
          let concrete := getConcrete st abstract in
          let object :=
            if isBuildable concrete abstract
            then build (λ a, make fuel' a ∅) parameters concrete st
            else make fuel' concrete ∅ st in
          match object with
          | None => None
          | Some (Threw e, st1) => Some (Threw e, st1)
          | Some (Ok v, st1) =>
              let st2 :=
                if isShared st1 abstract
                then set_instances (<[abstract := v]> (instances st1)) st1
                else st1 in
              Some (Ok v, set_resolved ({[abstract]} ∪ resolved st2) st2)
          end
      end
  end.

(** ** Relations between states, for the statements *)

(** The dependency graph of a state.  An identifier depends on the alias
    it is bound to, and on the identifiers equal to the constructor
    parameter names of the class it resolves to: those are the
    identifiers [make] of [x] can call [make] of. *)
Definition depends (st : State) (x y : Abstract) : Prop :=
  let concrete := getConcrete st x in
  if isBuildable concrete x then
    (is_function concrete && negb (isClass concrete)) = false
    ∧ ∃ name, y = AName name ∧ name ∈ getParamNames (toString concrete)
  else y = concrete.

(** [y] is below [x] in the graph. *)
Definition dependency_of (st : State) (y x : Abstract) : Prop := depends st x y.

(** The part of the graph that a [make] without overrides follows: a
    parameter named like a member of [Object.prototype] is read from the
    record of overrides and never resolved. *)
Definition calls (st : State) (x y : Abstract) : Prop :=
  let concrete := getConcrete st x in
  if isBuildable concrete x then
    (is_function concrete && negb (isClass concrete)) = false
    ∧ ∃ name, y = AName name ∧ name ∈ getParamNames (toString concrete)
              ∧ name ∉ Object_prototype
  else y = concrete.

(** [st'] comes after [st] in a run that only resolves: the bindings and
    the build stack are the same, no cache entry was removed or replaced,
    every entry added is for a shared binding and its identifier was
    recorded as resolved, and the resolved set and the heap only grew. *)
Record extends (st st' : State) : Prop := mkExtends {
  ext_bindings : bindings st' = bindings st;
  ext_stack : buildStack st' = buildStack st;
  ext_instances : instances st ⊆ instances st';
  ext_shared : ∀ k, instances st !! k = None → is_Some (instances st' !! k) →
                    isShared st k = true ∧ k ∈ resolved st';
  ext_resolved : resolved st ⊆ resolved st';
  ext_heap : heap st `prefix_of` heap st';
}.

(** [x] reaches [k] in the graph of calls through identifiers that have
    no cached instance in [st]. *)
Inductive chain (st : State) (k : Abstract) : Abstract → Prop :=
| chain_here : instances st !! k = None → chain st k k
| chain_step x y :
    instances st !! x = None → calls st x y → chain st k y → chain st k x.

(** One call of the public interface, other than [instance] on the
    identifier [a]; a call of [make] counts whether it returns or throws. *)
Inductive op (a : Abstract) : State → State → Prop :=
| op_bind x concrete sh st : op a st (bind x concrete sh st)
| op_singleton x concrete st : op a st (singleton x concrete st)
| op_instance x v st : x ≠ a → op a st (instance x v st)
| op_make fuel x parameters st r st' :
    make fuel x parameters st = Some (r, st') → op a st st'.

(** Any number of such calls. *)
Inductive ops (a : Abstract) : State → State → Prop :=
| ops_none st : ops a st st
| ops_more st st' st'' : op a st st' → ops a st' st'' → ops a st st''.

(** The producer [concrete] makes a new object at every call: a class
    that [build] recognises as one, or a factory that allocates. *)
Definition allocates (concrete : Abstract) : Prop :=
  match concrete with
  | AClass c => starts_as_class (cls_source c) = true
  | AFactory f => ∃ cls args, fac_recipe f = Fresh cls args
  | AName _ | ASymbol _ _ => False
  end.

(** No member of [trapped] has a cached instance in [s], a state with the
    bindings of [st0]. *)
Definition safe (st0 : State) (trapped : Abstract → Prop) (s : State) : Prop :=
  bindings s = bindings st0 ∧ ∀ b, trapped b → instances s !! b = None.

(** ** The examples of the tests *)

Definition Foo : Class := mkClass 1 "Foo" "class Foo {}".
Definition Bar : Class := mkClass 2 "Bar" "class Bar {}".
(** [class Baz { constructor(public bar: Bar) {} }], compiled *)
Definition Baz : Class :=
  mkClass 3 "Baz" "class Baz { constructor(bar) { this.bar = bar; } }".
(** [class Pair { constructor(public a: A, public b: B) {} }], compiled *)
Definition Pair : Class :=
  mkClass 4 "Pair" "class Pair { constructor(a, b) { this.a = a; this.b = b; } }".
(** [class Loop { constructor(public loop: Loop) {} }], compiled *)
Definition Loop : Class :=
  mkClass 5 "Loop" "class Loop { constructor(loop) { this.loop = loop; } }".

(** [container.bind('bar', Bar); container.bind(Baz, Baz);] *)
Definition manual_bind : State :=
  bind (AClass Baz) (AClass Baz) false (bind (AName "bar") (AClass Bar) false empty).

(** [container.singleton('bar', Bar); container.bind(Baz, Baz);] *)
Definition shared_dependency : State :=
  bind (AClass Baz) (AClass Baz) false (singleton (AName "bar") (AClass Bar) empty).

(** [container.bind('a', Foo); container.bind('b', Bar); container.bind(Pair, Pair);] *)
Definition two_parameters : State :=
  bind (AClass Pair) (AClass Pair) false
    (bind (AName "b") (AClass Bar) false (bind (AName "a") (AClass Foo) false empty)).

(** [container.singleton('a', Foo); container.singleton(Pair, Pair);] *)
Definition second_unbound : State :=
  singleton (AClass Pair) (AClass Pair) (singleton (AName "a") (AClass Foo) empty).

(** [container.bind('loop', Loop);] *)
Definition cyclic : State := bind (AName "loop") (AClass Loop) false empty.

(** [const foo = new Foo(); container.bind(Foo, Foo); container.instance(Foo, foo);] *)
Definition registered : State :=
  instance (AClass Foo) (VRef 0)
    (bind (AClass Foo) (AClass Foo) false (alloc "Foo" [] empty).2).

(** A measure that decreases along the dependency graph of
    [manual_bind]. *)
Definition manual_bind_rank (x : Abstract) : nat :=
  match x with
  | AName s => if String.eqb s "bar" then 0 else S (String.length s)
  | ASymbol _ _ => S (String.length (toString x))
  | AClass c => S (String.length (cls_source c))
  | AFactory _ => 0
  end.

(** The state a call of [make] leaves, whether it returned or threw. *)
Definition after (fuel : nat) (abstract : Abstract) (parameters : gmap string Value)
    (st : State) : State :=
  match make fuel abstract parameters st with
  | Some (_, st') => st'
  | None => st
  end.

(** ** The rest of the interface *)

(** [getBindings(abstract)]: the binding, or the identifier itself when
    there is none. *)
Definition getBindings (st : State) (abstract : Abstract) : Concrete + Abstract :=
  match bindings st !! abstract with
  | Some binding => inl binding
  | None => inr abstract
  end.

(** One call of the public interface of the container; a call of [make]
    counts whether it returns or throws. *)
Inductive api : State → State → Prop :=
| api_bind x concrete sh st : api st (bind x concrete sh st)
| api_singleton x concrete st : api st (singleton x concrete st)
| api_instance x v st : api st (instance x v st)
| api_make fuel x parameters st r st' :
    make fuel x parameters st = Some (r, st') → api st st'.

(** [c] occurs in [s]. *)
Fixpoint has_char (c : ascii) (s : string) : bool :=
  match s with
  | EmptyString => false
  | String a s' => Ascii.eqb a c || has_char c s'
  end.

(** [names.join(sep)] *)
Fixpoint join (sep : string) (names : list string) : string :=
  match names with
  | [] => EmptyString
  | [name] => name
  | name :: names' => name +:+ sep +:+ join sep names'
  end.

(** A parameter name as [getParamNames] can return it unchanged: not
    empty, without comma or closing parenthesis, not starting with white
    space. *)
Definition plain_name (name : string) : Prop :=
  name ≠ EmptyString
  ∧ has_char ","%char name = false
  ∧ has_char ")"%char name = false
  ∧ drop_spaces name = name.

(** The instances registered under [names], in order. *)
Definition registered_as (st : State) (names : list string) (values : list Value)
    : Prop :=
  Forall2 (λ name v, instances st !! AName name = Some v) names values.

(** The values the overrides give for [names], in order. *)
Definition overridden (parameters : gmap string Value) (names : list string)
    (values : list Value) : Prop :=
  Forall2 (λ name v, parameters !! name = Some v) names values.

(** [name] is not an own property of the overrides, and is the name of a
    member of [Object.prototype]. *)
Definition inherited (parameters : gmap string Value) (name : string) : Prop :=
  parameters !! name = None ∧ name ∈ Object_prototype.

(** [class Text { constructor(toString) {} }], compiled, and a container
    with an instance registered under the name of its parameter. *)
Definition Text : Class :=
  mkClass 6 "Text" "class Text { constructor(toString) { this.toString = toString; } }".
Definition registered_toString : State :=
  instance (AName "toString") (VStr "registered") empty.

End Container.

(* ===================================================================== *)
(** * The application ([application.ts], [provider.ts])                   *)
(* ===================================================================== *)

Module Application.
Import Container.

(** [ServiceProvider]: the two hooks a provider implements.  They run on
    the container the provider was constructed with, here the
    application's, through its public interface; a hook returns or
    throws. *)
Record ServiceProvider := mkProvider {
  provider_register : State → Result unit * State;
  provider_boot : State → Result unit * State;
}.

(** The classes [registerBaseBindings] uses as identifiers. *)
Record Classes := mkClasses {
  ContainerClass : Class;
  LoggerClass : Class;
  EmitterClass : Class;
}.

(** [Application extends Container]: the inherited fields ([container]),
    the reference to the object itself ([this]), and the fields the
    methods read or write.  The path fields that no method reads are
    left out. *)
Record App := mkApp {
  container : State;
  this : Value;
  VERSION : string;
  basePath : option string;
  hasBeenBootstrapped : bool;
  booted : bool;
  serviceProviders : gmap string ServiceProvider;
  loadedProviders : gmap string bool;
  storagePath : string;
}.

Definition set_container (st : State) (app : App) : App :=
  mkApp st (this app) (VERSION app) (basePath app) (hasBeenBootstrapped app)
        (booted app) (serviceProviders app) (loadedProviders app) (storagePath app).

(** [this.buildStack = []] *)
Definition set_buildStack (stack : list Abstract) (st : State) : State :=
  mkState (resolved st) (bindings st) (instances st) stack (heap st).

(** [registerBaseBindings()].  The constructors of [Logger] and [Emitter]
    are taken to allocate; what the logger does to the file system is
    left out. *)
Definition registerBaseBindings (cls : Classes) (app : App) : App :=
  let st1 := instance (AName "app") (this app) (container app) in
  let st2 := instance (AClass (ContainerClass cls)) (this app) st1 in
  let '(logger, st3) := alloc "Logger" [VStr (storagePath app)] st2 in
  let st4 := instance (AClass (LoggerClass cls)) logger st3 in
  let '(emitter, st5) := alloc "Emitter" [] st4 in
  let st6 := instance (AClass (EmitterClass cls)) emitter st5 in
  set_container st6 app.

(** [new Application(basePath)] in a program whose heap is [heap0]: the
    field initialisers, [if (basePath) this.basePath = basePath] (an
    empty string is falsy) and [registerBaseBindings()]. *)
Definition new_Application (cls : Classes) (path : option string) (heap0 : list Object)
    : App :=
  let '(self, st) := alloc "Application" [] (mkState ∅ ∅ ∅ [] heap0) in
  let given := match path with
               | Some EmptyString | None => None
               | Some p => Some p
               end in
  registerBaseBindings cls
    (mkApp st self "1.0.0" given false false ∅ ∅ "./storage/").

(** [get V()] *)
Definition V (app : App) : string := VERSION app.

(** [new Error(`Service provider [${provider}] is not registered.`)] *)
Definition UnregisteredProvider (provider : string) : JsError :=
  mkError "Error" ("Service provider [" +:+ provider +:+ "] is not registered.").

(** [getProvider(provider)]: [None] is [null]. *)
Definition getProvider (app : App) (provider : string) : option ServiceProvider :=
  serviceProviders app !! provider.

(** [markedAsRegistered(provider, instance)] *)
Definition markedAsRegistered (provider : string) (inst : ServiceProvider) (app : App)
    : App :=
  mkApp (container app) (this app) (VERSION app) (basePath app)
        (hasBeenBootstrapped app) (booted app)
        (<[provider := inst]> (serviceProviders app))
        (<[provider := true]> (loadedProviders app)) (storagePath app).

(** [register(provider, force)] *)
Definition register (provider : string) (force : bool) (app : App)
    : Result ServiceProvider * App :=
  match getProvider app provider with
  | Some existing =>
      if negb force then (Ok existing, app)
      else
        (* [this.serviceProviders.get(provider)] is [existing] again *)
        match provider_register existing (container app) with
        | (Ok _, st) => (Ok existing, markedAsRegistered provider existing (set_container st app))
        | (Threw e, st) => (Threw e, set_container st app)
        end
  | None => (Threw (UnregisteredProvider provider), app)
  end.

(** [bootProvider(provider)] *)
Definition bootProvider (provider : ServiceProvider) (app : App) : Result unit * App :=
  let '(r, st) := provider_boot provider (container app) in (r, set_container st app).

(** [isBooted()] *)
Definition isBooted (app : App) : bool := booted app.

(** [flush()] *)
Definition flush (app : App) : App :=
  set_container (set_buildStack [] (container app)) app.

(** The computation [c], with [buildStack] set to [stack] in the state it
    leaves. *)
Definition restack {A : Type} (stack : list Abstract) (c : Comp A) : Comp A :=
  match c with
  | Some (r, st) => Some (r, set_buildStack stack st)
  | None => None
  end.

(** One call of the public interface of an application: a call inherited
    from the container, [register] (whether it returns or throws) or
    [flush]. *)
Inductive app_api : App → App → Prop :=
| app_container app st' :
    api (container app) st' → app_api app (set_container st' app)
| app_register provider force app r app' :
    register provider force app = (r, app') → app_api app app'
| app_flush app : app_api app (flush app).

End Application.

(* ===================================================================== *)
(** * The logger ([logger.ts])                                            *)
(* ===================================================================== *)

Module Logger.

Local Open Scope nat_scope.

(** [type LogLevel = 'info' | 'warning' | 'error' | 'debug' | 'notice'] *)
Inductive LogLevel := info | warning | error | debug | notice.

(** [level.toUpperCase()] *)
Definition toUpperCase (level : LogLevel) : string :=
  match level with
  | info => "INFO"
  | warning => "WARNING"
  | error => "ERROR"
  | debug => "DEBUG"
  | notice => "NOTICE"
  end.

(** A context object [Record<string, any>], by what [writeToFile] reads
    of it: its own keys and the text [JSON.stringify] gives for it.  A
    context is a value here: a pipe changes the context of a payload by
    assigning the field. *)
Record Context := mkContext { keys : list string; json : string }.

(** [{}] *)
Definition no_context : Context := mkContext [] "{}".

(** The fields of a [LogPayload] object; [context] is optional. *)
Record LogPayload := mkPayload {
  level : LogLevel;
  message : string;
  context : option Context;
  timestamp : string;
}.

(** Payloads are objects, passed to the pipes and to [next] by
    reference, and a pipe can assign their fields.  [cell a] is the
    object at address [a]; the addresses from [free] on are unused. *)
Record Store := mkStore { cell : nat → LogPayload; free : nat }.

(** [payload.field = ...] on the object at [a], for any of its fields. *)
Definition assign (a : nat) (fields : LogPayload) (store : Store) : Store :=
  mkStore (λ b, if Nat.eqb b a then fields else cell store b) (free store).

(** A new payload object, as an object literal creates it. *)
Definition create (fields : LogPayload) (store : Store) : nat * Store :=
  (free store,
   mkStore (λ b, if Nat.eqb b (free store) then fields else cell store b)
           (S (free store))).

(** The body of a log pipe, by what it does with payload objects and
    with its continuation: it returns, throws, reads the fields of a
    payload, assigns them, creates a payload, or awaits [next(payload)]
    and goes on with what that call threw, if anything. *)
Inductive Body :=
| Done
| Fail (e : JsError)
| Read (a : nat) (k : LogPayload → Body)
| Assign (a : nat) (fields : LogPayload) (k : Body)
| Create (fields : LogPayload) (k : nat → Body)
| Next (a : nat) (k : option JsError → Body).

(** [type Pipe = LogPipe | ((payload, next) => Promise<void>)]: a function,
    or an object with a [handle] method; either receives the reference
    to the payload. *)
Inductive Pipe :=
| FnPipe (f : nat → Body)
| ObjectPipe (handle : nat → Body).

Definition newline : string := String (ascii_of_nat 10) EmptyString.

(** The line [writeToFile(payload)] writes to the stream. *)
Definition line (payload : LogPayload) : string :=
  let tail := match context payload with
              | Some c => match keys c with
                          | [] => EmptyString
                          | _ :: _ => " | " +:+ json c
                          end
              | None => EmptyString
              end in
  "[" +:+ timestamp payload +:+ "] " +:+ toUpperCase (level payload)
    +:+ ": " +:+ message payload +:+ tail +:+ newline.

(** The payload objects, and what has been written to the stream, oldest
    line first. *)
Definition World : Type := Store * list string.

(** Running a body against the continuation [next]. *)
Fixpoint settle (next : nat → World → option JsError * World)
    (b : Body) (w : World) : option JsError * World :=
  match b with
  | Done => (None, w)
  | Fail e => (Some e, w)
  | Read a k => settle next (k (cell w.1 a)) w
  | Assign a fields k => settle next k (assign a fields w.1, w.2)
  | Create fields k => let '(a, store) := create fields w.1 in settle next (k a) (store, w.2)
  | Next a k => let '(r, w') := next a w in settle next (k r) w'
  end.

(** [dispatch(index, payload)], [rest] being [this.pipes] from [index]
    on: at the end of the list the payload is written; otherwise the pipe
    is called, directly when [typeof pipe === 'function'] and through
    [handle] when not, with [dispatch(index + 1, _)] as continuation. *)
Fixpoint dispatch (rest : list Pipe) (payload : nat) (w : World)
    : option JsError * World :=
  match rest with
  | [] => (None, (w.1, w.2 ++ [line (cell w.1 payload)]))
  | FnPipe f :: rest' => settle (dispatch rest') (f payload) w
  | ObjectPipe handle :: rest' => settle (dispatch rest') (handle payload) w
  end.

(** The payload object [log] creates. *)
Definition entry (lvl : LogLevel) (msg : string) (ctx : option Context) (now : string)
    : LogPayload :=
  mkPayload lvl msg (Some (default no_context ctx)) now.

(** [log(level, message, context = {})] at the instant [now] (the text of
    [new Date().toISOString()]), on a logger whose pipes are [pipes]:
    the payload is a new object. *)
Definition log (pipes : list Pipe) (lvl : LogLevel) (msg : string)
    (ctx : option Context) (now : string) (out : list string)
    : option JsError * list string :=
  let '(payload, store) := create (entry lvl msg ctx now) (mkStore (λ _, entry lvl msg ctx now) 0) in
  let '(r, w) := dispatch pipes payload (store, out) in
  (r, w.2).

(** What a pipe does with the error of [await next(...)]: nothing more
    when there is none, and the error leaves the body when there is. *)
Definition finish (r : option JsError) : Body :=
  match r with
  | None => Done
  | Some e => Fail e
  end.

(** A pipe that changes the payload and forwards it.  In place, as the
    pipes of the tests do:
    [async (payload, next) => { payload.message = ...; await next(payload); }],
    or as a copy:
    [async (payload, next) => { await next({ ...payload, message: ... }); }]. *)
Definition forwarder (in_place : bool) (f : LogPayload → LogPayload) : nat → Body :=
  λ a, Read a (λ p,
         if in_place then Assign a (f p) (Next a finish)
         else Create (f p) (λ a', Next a' finish)).

Definition forwarders (fs : list (bool * (LogPayload → LogPayload))) : list (nat → Body) :=
  map (λ p, forwarder p.1 p.2) fs.

(** The changes of [fs], first to last, made to [p]. *)
Definition applied (fs : list (bool * (LogPayload → LogPayload))) (p : LogPayload)
    : LogPayload :=
  foldl (λ q f, f.2 q) p fs.

(** The pipes of [fs] that come before the first one that copies: their
    changes are made to the object the first of them receives. *)
Fixpoint in_place_prefix (fs : list (bool * (LogPayload → LogPayload)))
    : list (bool * (LogPayload → LogPayload)) :=
  match fs with
  | (true, f) :: fs' => (true, f) :: in_place_prefix fs'
  | _ => []
  end.

(** [async (payload, next) => { await next(payload); await next(payload); }] *)
Definition again : nat → Body :=
  λ a, Next a (λ r, match r with
                    | None => Next a finish
                    | Some e => Fail e
                    end).

(** [async (_, next) => { await next({...p1}); await next({...p2}); }] *)
Definition two_entries (p1 p2 : LogPayload) : nat → Body :=
  λ _, Create p1 (λ a1, Next a1 (λ r,
         match r with
         | None => Create p2 (λ a2, Next a2 finish)
         | Some e => Fail e
         end)).

(** The pipes [bodies], the one at position [n] written as an object
    when [as_object n] holds and as a function when not. *)
Definition shaped (as_object : nat → bool) (bodies : list (nat → Body))
    : list Pipe :=
  imap (λ n b, if as_object n then ObjectPipe b else FnPipe b) bodies.

End Logger.

(* ===================================================================== *)
(** * Properties of the pipeline                                          *)
(* ===================================================================== *)

Module PipelineFacts.
Import Pipeline.

Section Run.
Context {T : Type}.
Implicit Types (rest pipes : list (Pipe T)) (s : RunState) (v : T) (i : Z).

(** The guard of [dispatch]. *)
Lemma dispatch_guard rest i v s :
  i ≤ index s → dispatch rest i v s = (Rejected DoubleInvocation, s).
Proof.
  intros Hle. destruct rest; simpl;
    destruct (Z.leb_spec i (index s)); first [reflexivity | lia].
Qed.

Lemma dispatch_end i v s :
  index s < i → dispatch (@nil (Pipe T)) i v s = (Resolved v, set_index i s).
Proof.
  intros Hlt. simpl. destruct (Z.leb_spec i (index s)); [lia | reflexivity].
Qed.

Lemma dispatch_fn f rest i v s :
  index s < i →
  dispatch (FnPipe f :: rest) i v s
  = settle (dispatch rest (i + 1)) (f v) (enter i (set_index i s)).
Proof.
  intros Hlt. simpl. destruct (Z.leb_spec i (index s)); [lia | reflexivity].
Qed.

Lemma dispatch_plain f rest i v s :
  index s < i →
  dispatch (PlainFnPipe f :: rest) i v s
  = settle (dispatch rest (i + 1)) (f v) (enter i (enter i (set_index i s))).
Proof.
  intros Hlt. simpl. destruct (Z.leb_spec i (index s)); [lia | reflexivity].
Qed.

Lemma dispatch_class name handle rest i v s :
  index s < i →
  dispatch (ClassPipe name handle :: rest) i v s
  = match settle (dispatch rest (i + 1)) (handle v) (enter i (set_index i s)) with
    | (Resolved w, s2) => (Resolved w, s2)
    | (Rejected _, s2) => (Rejected (ClassCallError name), s2)
    end.
Proof.
  intros Hlt. simpl. destruct (Z.leb_spec i (index s)); [lia | reflexivity].
Qed.

(** [dispatch_at] unfolds the way [dispatch] is written in the source:
    the pipe is [this.pipes[i]] and the continuation is
    [dispatch(i + 1, _)]. *)
Lemma dispatch_at_unfold pipes (i : nat) v s :
  (i ≤ length pipes)%nat →
  dispatch_at pipes i v s =
    if Z.of_nat i <=? index s then (Rejected DoubleInvocation, s)
    else
      let s1 := set_index (Z.of_nat i) s in
      match pipes !! i with
      | None => (Resolved v, s1)
      | Some (ClassPipe name handle) =>
          match settle (dispatch_at pipes (S i)) (handle v) (enter (Z.of_nat i) s1) with
          | (Resolved w, s2) => (Resolved w, s2)
          | (Rejected _, s2) => (Rejected (ClassCallError name), s2)
          end
      | Some (FnPipe f) =>
          settle (dispatch_at pipes (S i)) (f v) (enter (Z.of_nat i) s1)
      | Some (PlainFnPipe f) =>
          settle (dispatch_at pipes (S i)) (f v)
            (enter (Z.of_nat i) (enter (Z.of_nat i) s1))
      end.
Proof.
  intros Hi. unfold dispatch_at.
  replace (Z.of_nat (S i)) with (Z.of_nat i + 1) by lia.
  destruct (pipes !! i) as [pipe|] eqn:Hp.
  - rewrite (drop_S _ _ _ Hp). destruct pipe; reflexivity.
  - apply lookup_ge_None in Hp. rewrite drop_ge by lia. reflexivity.
Qed.

Lemma thenReturn_at pipes v :
  thenReturn pipes v = fst (dispatch_at pipes 0 v initial).
Proof. reflexivity. Qed.

(** ** What every call of [dispatch] keeps *)

(** A body keeps what its continuation keeps. *)
Lemma settle_keeps (P : RunState → Prop)
    (next : T → RunState → Outcome T * RunState) b :
  (∀ v s, P s → P (snd (next v s))) →
  ∀ s, P s → P (snd (settle next b s)).
Proof.
  intros Hnext. induction b as [w|e|w k IH]; intros s Hs; simpl; try done.
  specialize (Hnext w s Hs). destruct (next w s) as [o s']. by apply IH.
Qed.

(** The state a pipe's body starts in: the position has been entered,
    twice when [new] ran the body first. *)
Lemma dispatch_state pipe rest i v s :
  index s < i →
  ∃ b (n : nat),
    (n = 1 ∨ n = 2)%nat ∧
    (n = 2%nat → ∃ f, pipe = PlainFnPipe f) ∧
    snd (dispatch (pipe :: rest) i v s)
    = snd (settle (dispatch rest (i + 1)) b (mkRun i (replicate n i ++ entered s))).
Proof.
  intros Hlt. destruct pipe as [f|f|name handle].
  - exists (f v), 1%nat. rewrite dispatch_fn by done.
    split; [by left|]. split; [|done]. intros [=].
  - exists (f v), 2%nat. rewrite dispatch_plain by done.
    split; [by right|]. split; [by eexists | done].
  - exists (handle v), 1%nat. rewrite dispatch_class by done.
    split; [by left|]. split; [intros [=]|].
    change (enter i (set_index i s)) with (mkRun i (replicate 1 i ++ entered s)).
    by destruct (settle _ _ _) as [[w|e] s2].
Qed.

(** Whatever is kept by moving on to a higher position and entering it
    any number of times is kept by [dispatch]. *)
Lemma dispatch_keeps (P : RunState → Prop) :
  (∀ i s (n : nat), index s < i → P s → P (mkRun i (replicate n i ++ entered s))) →
  ∀ rest i v s, P s → P (snd (dispatch rest i v s)).
Proof.
  intros Hmove.
  induction rest as [|pipe rest IH]; intros i v s Hs.
  - destruct (Z.leb_spec i (index s)) as [Hle|Hlt].
    + by rewrite dispatch_guard.
    + rewrite dispatch_end by done. by apply (Hmove i s 0%nat).
  - destruct (Z.leb_spec i (index s)) as [Hle|Hlt].
    + by rewrite dispatch_guard.
    + destruct (dispatch_state pipe rest i v s Hlt) as (b & n & _ & _ & ->).
      apply settle_keeps; [intros; by apply IH|]. by apply Hmove.
Qed.

(** ** The entered log: positions are entered in declared order *)

Lemma dispatch_ordered rest :
  ∀ i v s, ordered s → ordered (snd (dispatch rest i v s)).
Proof.
  apply dispatch_keeps. intros i s n Hlt [Hsorted Hall].
  assert (Hbelow : Forall (λ j, Z.ge i j) (entered s)).
  { eapply Forall_impl; [exact Hall|]. simpl. lia. }
  split; simpl.
  - induction n as [|n IH]; simpl; [done|].
    constructor; [done|]. apply Forall_app. split; [|done].
    apply Forall_forall. intros j Hj. apply elem_of_replicate in Hj. lia.
  - apply Forall_app. split.
    + apply Forall_forall. intros j Hj. apply elem_of_replicate in Hj. lia.
    + eapply Forall_impl; [exact Hall|]. simpl. lia.
Qed.

Lemma occurrences_cons j k log :
  occurrences j (k :: log)
  = if decide (k = j) then S (occurrences j log) else occurrences j log.
Proof. unfold occurrences. rewrite filter_cons. by case_decide. Qed.

Lemma occurrences_replicate j i (n : nat) log :
  occurrences j (replicate n i ++ log)
  = ((if decide (i = j) then n else 0) + occurrences j log)%nat.
Proof.
  induction n as [|n IH]; simpl.
  - by case_decide.
  - rewrite occurrences_cons, IH. by case_decide.
Qed.

(** The position a call moves on to, with the pipes before it. *)
Lemma dispatch_counted pipes :
  ∀ rest pre, pipes = pre ++ rest →
    ∀ v s, counted pipes s →
      counted pipes (snd (dispatch rest (Z.of_nat (length pre)) v s)).
Proof.
  induction rest as [|pipe rest IH]; intros pre Hpipes v s Hs;
    set (i := Z.of_nat (length pre));
    (destruct (Z.leb_spec i (index s)) as [Hle|Hlt];
     [by rewrite dispatch_guard|]).
  - rewrite dispatch_end by done. destruct Hs as [Habove Hcap].
    split; simpl; [|done]. intros j Hj. apply Habove. lia.
  - destruct (dispatch_state pipe rest i v s Hlt) as (b & n & Hn & Hplain & ->).
    apply settle_keeps.
    { intros w s1 Hs1.
      replace (i + 1) with (Z.of_nat (length (pre ++ [pipe])))
        by (rewrite length_app; simpl; lia).
      apply IH; [by rewrite <- app_assoc | done]. }
    destruct Hs as [Habove Hcap].
    assert (Hhere : pipes !! Z.to_nat i = Some pipe).
    { unfold i. rewrite Nat2Z.id, Hpipes.
      by rewrite lookup_app_r, Nat.sub_diag by lia. }
    assert (Hfresh : occurrences i (entered s) = 0%nat) by (by apply Habove).
    assert (Hentries : (n ≤ entries pipes i)%nat).
    { unfold entries. destruct (Z.ltb_spec i 0) as [Hneg|_]; [unfold i in Hneg; lia|].
      rewrite Hhere. destruct Hn as [-> | ->].
      - destruct pipe; lia.
      - by destruct (Hplain eq_refl) as [f ->]. }
    split; simpl.
    + intros j Hj. rewrite occurrences_replicate, decide_False by lia.
      simpl. apply Habove. lia.
    + intros j. rewrite occurrences_replicate. case_decide as Hij.
      * subst j. rewrite Hfresh. lia.
      * apply Hcap.
Qed.

Lemma plain_function_entered_twice (f : T → Body T) rest v :
  occurrences 0 (entered (snd (run (PlainFnPipe f :: rest) v))) = 2%nat.
Proof.
  unfold run. rewrite dispatch_plain by (simpl; lia).
  apply (settle_keeps (λ s, occurrences 0 (entered s) = 2%nat ∧ 0 ≤ index s));
    [|by split].
  intros w s Hs. revert Hs.
  apply (dispatch_keeps (λ s, occurrences 0 (entered s) = 2%nat ∧ 0 ≤ index s)).
  intros i s0 n Hlt [Hocc Hidx]. cbn [entered index].
  rewrite occurrences_replicate, decide_False by lia. split; [done | lia].
Qed.

(** In one run the positions are entered in declared order, whatever the
    pipes do, and the body at a position is entered at most once, or at
    most twice when the pipe is a function [new] can be applied to:
    [dispatch] runs such a body under [new], without arguments, before
    it calls it, so that a function of this kind at the head of the list
    has its body entered twice. *)
Theorem entered_once_or_twice :
  (∀ pipes v,
     StronglySorted Z.ge (entered (snd (run pipes v)))
     ∧ ∀ j, (occurrences j (entered (snd (run pipes v))) ≤ entries pipes j)%nat)
  ∧ (∀ (f : T → Body T) rest v,
       occurrences 0 (entered (snd (run (PlainFnPipe f :: rest) v))) = 2%nat).
Proof.
  split; [|apply plain_function_entered_twice].
  intros pipes v. split.
  - apply dispatch_ordered. split; constructor.
  - apply (dispatch_counted pipes pipes [] eq_refl v initial).
    split; [done|]. intros j. apply Nat.le_0_l.
Qed.

(** ** Pipes that do not raise *)

Lemma dispatch_chain (ps : list (Shape * (T → Step T))) :
  ∀ i v s, index s < i →
    ∃ s', dispatch (pipes_of ps) i v s = (Resolved (chain (map snd ps) v), s')
          ∧ index s' ≤ i + Z.of_nat (length ps).
Proof.
  induction ps as [|[sh h] ps IH]; intros i v s Hlt.
  - exists (set_index i s). rewrite dispatch_end by done. simpl. split; [done | lia].
  - assert (Hnext : ∀ s0, index s0 = i → index s0 < i + 1) by (intros; lia).
    assert (Hshape : ∃ s0, index s0 = i ∧
              dispatch (pipes_of ((sh, h) :: ps)) i v s
              = match settle (dispatch (pipes_of ps) (i + 1)) (body_of (h v)) s0 with
                | (Resolved w, s2) => (Resolved w, s2)
                | (Rejected e, s2) =>
                    (Rejected (match sh with AsClass name => ClassCallError name | _ => e end), s2)
                end).
    { destruct sh as [| |name]; cbn [pipes_of map pipe_of fst snd];
        fold (pipes_of ps).
      - exists (enter i (set_index i s)). rewrite dispatch_fn by done.
        split; [done|]. by destruct (settle _ _ _) as [[w|e] s2].
      - exists (enter i (enter i (set_index i s))). rewrite dispatch_plain by done.
        split; [done|]. by destruct (settle _ _ _) as [[w|e] s2].
      - exists (enter i (set_index i s)). by rewrite dispatch_class by done. }
    destruct Hshape as (s0 & Hs0 & ->). simpl chain.
    destruct (h v) as [w|w after] eqn:Hh; simpl.
    + exists s0. split; [done|]. lia.
    + destruct (IH (i + 1) w s0 (Hnext s0 Hs0)) as (s' & -> & Hidx).
      exists s'. split; [done|]. lia.
Qed.

(** The result of a run of pipes that do not raise is the meaning of the
    declared list, whatever the shapes. *)
Lemma thenReturn_chain (ps : list (Shape * (T → Step T))) v :
  thenReturn (pipes_of ps) v = Resolved (chain (map snd ps) v).
Proof.
  unfold thenReturn, run.
  destruct (dispatch_chain ps 0 v initial) as (s' & -> & _);
    [simpl; lia|done].
Qed.

Lemma chain_forward (fs : list (T → T)) v :
  chain (map forward fs) v = foldl (λ acc f, f acc) v fs.
Proof.
  revert v. induction fs as [|f fs IH]; intros v; simpl; [done|].
  by rewrite IH.
Qed.

Lemma shaped_pipes_of shape (hs : list (T → Step T)) :
  ∃ ps, shaped shape hs = pipes_of ps ∧ map snd ps = hs.
Proof.
  revert shape. induction hs as [|h hs IH]; intros shape.
  - by exists [].
  - destruct (IH (shape ∘ S)) as (ps & Heq & Hsnd).
    exists ((shape 0%nat, h) :: ps). split.
    + unfold shaped in *. simpl. f_equal. exact Heq.
    + simpl. by rewrite Hsnd.
Qed.

Lemma thenReturn_shaped shape (hs : list (T → Step T)) v :
  thenReturn (shaped shape hs) v = Resolved (chain hs v).
Proof.
  destruct (shaped_pipes_of shape hs) as (ps & -> & <-).
  apply thenReturn_chain.
Qed.

(** ** The highest index reached never decreases *)

Lemma dispatch_index rest :
  ∀ i v s, index s ≤ index (snd (dispatch rest i v s))
           ∧ (index s < i → i ≤ index (snd (dispatch rest i v s))).
Proof.
  intros i v s.
  assert (Hkeep : ∀ rest' i' v' s' n, n ≤ index s' →
            n ≤ index (snd (dispatch rest' i' v' s'))).
  { intros rest' i' v' s' n.
    apply (dispatch_keeps (λ s0, n ≤ index s0)); simpl; intros; lia. }
  split; [by apply Hkeep|].
  intros Hlt. destruct rest as [|pipe rest].
  - rewrite dispatch_end by done. simpl. lia.
  - destruct (dispatch_state pipe rest i v s Hlt) as (b & n & _ & _ & ->).
    apply (settle_keeps (λ s1, i ≤ index s1)); [|simpl; lia].
    intros w s1 Hs1. by apply Hkeep.
Qed.

(** A body that invokes its continuation a second time gets the
    double-invocation error from that call, unless the first call
    rejected: then its error leaves the body. *)
Lemma settle_twice rest i (a b : T) v s :
  index s < i + 1 →
  ∃ s', settle (dispatch rest (i + 1)) (twice a b v) s
        = (match fst (dispatch rest (i + 1) a s) with
           | Resolved _ => Rejected DoubleInvocation
           | Rejected e => Rejected e
           end, s').
Proof.
  intros Hlt. unfold twice. simpl.
  pose proof (proj2 (dispatch_index rest (i + 1) a s) Hlt) as Hidx.
  destruct (dispatch rest (i + 1) a s) as [[w|e] s1]; simpl in *.
  - rewrite dispatch_guard by done. simpl. by exists s1.
  - by exists s1.
Qed.

(** An error thrown after pipes that forward comes out as the type error
    of the first class-shaped pipe it passes, and unchanged when it
    passes none. *)
Lemma dispatch_raising (ps : list (Shape * (T → T))) sh e rest :
  ∀ i v s, index s < i →
    fst (dispatch (pipes_of (map (λ p, (p.1, forward p.2)) ps) ++ raising sh e :: rest)
           i v s)
    = Rejected (match first_class (map fst ps ++ [sh]) with
                | Some name => ClassCallError name
                | None => e
                end).
Proof.
  induction ps as [|[sh' f] ps IH]; intros i v s Hlt.
  - cbn [map pipes_of app]. destruct sh as [| |name]; cbn [raising first_class].
    + by rewrite dispatch_fn.
    + by rewrite dispatch_plain.
    + by rewrite dispatch_class.
  - cbn [map pipes_of app fst snd].
    fold (pipes_of (map (λ p : Shape * (T → T), (p.1, forward p.2)) ps)).
    set (tail := pipes_of _ ++ _) in *.
    destruct sh' as [| |name]; cbn [pipe_of first_class].
    + rewrite dispatch_fn by done. unfold forward. cbn [body_of settle].
      specialize (IH (i + 1) (f v) (enter i (set_index i s)) ltac:(simpl; lia)).
      destruct (dispatch tail _ _ _) as [o s1]. simpl in IH. subst o. done.
    + rewrite dispatch_plain by done. unfold forward. cbn [body_of settle].
      specialize (IH (i + 1) (f v) (enter i (enter i (set_index i s))) ltac:(simpl; lia)).
      destruct (dispatch tail _ _ _) as [o s1]. simpl in IH. subst o. done.
    + rewrite dispatch_class by done. unfold forward. cbn [body_of settle].
      specialize (IH (i + 1) (f v) (enter i (set_index i s)) ltac:(simpl; lia)).
      destruct (dispatch tail _ _ _) as [o s1]. simpl in IH. subst o. done.
Qed.

End Run.

(** ** The claims about the pipeline *)

(** C1.  A class-shaped pipe whose [handle] throws [e] does not make the
    run reject with [e]: the [try] of [dispatch] encloses the call to
    [handle], so its [catch] takes the error and calls the class as a
    function, and the run rejects with the type error of that call
    instead.  The same body in a function-shaped pipe rejects with [e]
    itself.  The error of a later pipe is replaced in the same way when
    it comes back through a class-shaped pipe. *)
Theorem class_pipe_error_replaced :
  (∀ (T : Type) (name : string) (e : JsError) (rest : list (Pipe T)) (v : T),
     thenReturn (ClassPipe name (λ _, Throw e) :: rest) v
       = Rejected (ClassCallError name)
     ∧ thenReturn (FnPipe (λ _, Throw e) :: rest) v = Rejected e)
  ∧ (∀ (T : Type) (name : string) (f : T → T) (e : JsError)
       (rest : list (Pipe T)) (v : T),
       thenReturn (pipe_of (AsClass name) (forward f) :: FnPipe (λ _, Throw e) :: rest) v
         = Rejected (ClassCallError name)
       ∧ thenReturn (pipe_of AsFunction (forward f) :: FnPipe (λ _, Throw e) :: rest) v
         = Rejected e)
  ∧ thenReturn [ClassPipe "Boom" (λ _ : Z, Throw boom)] 1
      = Rejected (mkError "TypeError"
                    "Class constructor Boom cannot be invoked without 'new'")
  ∧ thenReturn [ClassPipe "Boom" (λ _ : Z, Throw boom)] 1 ≠ Rejected boom.
Proof.
  split; [|split; [|split; [reflexivity | discriminate]]].
  - intros T name e rest v. split; reflexivity.
  - intros T name f e rest v. split; reflexivity.
Qed.

(** C4.  A pipe that invokes its continuation twice: once the first call
    has resolved, the second is refused with the double-invocation
    error.  A function-shaped pipe passes that error on to the caller
    (and, when the first call rejected, the error of that call), while
    for a class-shaped pipe the [catch] of [dispatch] replaces whichever
    error leaves [handle] with the type error of calling the class as a
    function. *)
Theorem class_pipe_double_invocation_replaced :
  (∀ (T : Type) (name : string) (a b v : T) (rest : list (Pipe T)),
     thenReturn (FnPipe (twice a b) :: rest) v
       = match fst (dispatch rest 1 a (enter 0 (set_index 0 initial))) with
         | Resolved _ => Rejected DoubleInvocation
         | Rejected e => Rejected e
         end
     ∧ thenReturn (ClassPipe name (twice a b) :: rest) v
         = Rejected (ClassCallError name))
  ∧ (∀ (T : Type) (a b v : T) (ps : list (Shape * (T → Step T))),
       thenReturn (FnPipe (twice a b) :: pipes_of ps) v = Rejected DoubleInvocation)
  ∧ thenReturn [FnPipe (twice 1 2)] 0 = Rejected DoubleInvocation
  ∧ thenReturn [ClassPipe "Twice" (twice 1 2)] 0
      = Rejected (mkError "TypeError"
                    "Class constructor Twice cannot be invoked without 'new'")
  ∧ thenReturn [ClassPipe "Twice" (twice 1 2)] 0 ≠ Rejected DoubleInvocation.
Proof.
  split; [|split; [|split; [reflexivity | split; [reflexivity | discriminate]]]].
  - intros T name a b v rest. unfold thenReturn, run.
    destruct (settle_twice rest 0 a b v (enter 0 (set_index 0 initial)))
      as [s' Hs']; [simpl; lia|].
    split.
    + rewrite dispatch_fn by (simpl; lia). by rewrite Hs'.
    + rewrite dispatch_class by (simpl; lia). rewrite Hs'.
      by destruct (fst _).
  - intros T a b v ps. unfold thenReturn, run.
    destruct (settle_twice (pipes_of ps) 0 a b v (enter 0 (set_index 0 initial)))
      as [s' Hs']; [simpl; lia|].
    rewrite dispatch_fn by (simpl; lia). rewrite Hs'.
    destruct (dispatch_chain ps (0 + 1) a (enter 0 (set_index 0 initial)))
      as (s1 & -> & _); [simpl; lia | done].
Qed.

(** For pipes that do not raise the shape of a pipe does not matter: a
    run returns the meaning [chain] of the declared list whatever the
    shape of each pipe, so a mixed run, the all-function run and the
    all-class run agree; pipes that each append a marker return the
    markers in declared order; and
    [send(2).through([double, Square, subtractOne]).thenReturn()] is 15. *)
Lemma mixed_shapes_run_in_order :
  (∀ (T : Type) (shape : nat → Shape) (hs : list (T → Step T)) (v : T),
     thenReturn (shaped shape hs) v = Resolved (chain hs v))
  ∧ (∀ (T : Type) (shape : nat → Shape) (name : string)
       (hs : list (T → Step T)) (v : T),
       thenReturn (shaped shape hs) v = thenReturn (shaped (λ _, AsFunction) hs) v
       ∧ thenReturn (shaped shape hs) v = thenReturn (shaped (λ _, AsClass name) hs) v)
  ∧ (∀ (M : Type) (shape : nat → Shape) (markers seen : list M),
       thenReturn (shaped shape (map (λ m, forward (λ l, l ++ [m])) markers)) seen
       = Resolved (seen ++ markers))
  ∧ chain [double; square; subtractOne] 2 = 15
  ∧ thenReturn mixed 2 = Resolved 15.
Proof.
  split; [|split; [|split; [|split]]]; try reflexivity.
  - intros. apply thenReturn_shaped.
  - intros. by rewrite !thenReturn_shaped.
  - intros M shape markers seen. rewrite thenReturn_shaped. f_equal.
    revert seen. induction markers as [|m markers IH]; intros seen; simpl.
    + by rewrite app_nil_r.
    + unfold id. rewrite IH, <- app_assoc. done.
Qed.

(** C8.  The shape of a pipe changes the result of a run as soon as an
    error passes it.  When a pipe throws [e] after pipes that forward,
    the run rejects with [e] only if no pipe up to the one that threw is
    class-shaped; otherwise it rejects with the type error of calling
    the first class-shaped pipe as a function.  So
    [through([double, Square, subtractOne, fail])], its all-function
    equivalent and its all-class equivalent reject with three different
    errors, while without [fail] the run of the specification yields
    15. *)
Theorem shape_decides_the_error :
  (∀ (T : Type) (ps : list (Shape * (T → T))) (sh : Shape) (e : JsError)
     (rest : list (Pipe T)) (v : T),
     thenReturn (pipes_of (map (λ p, (p.1, forward p.2)) ps) ++ raising sh e :: rest) v
     = Rejected (match first_class (map fst ps ++ [sh]) with
                 | Some name => ClassCallError name
                 | None => e
                 end))
  ∧ thenReturn mixed 2 = Resolved 15
  ∧ thenReturn functions_failing 2 = Rejected boom
  ∧ thenReturn mixed_failing 2
    = Rejected (mkError "TypeError"
                  "Class constructor Square cannot be invoked without 'new'")
  ∧ thenReturn classes_failing 2
    = Rejected (mkError "TypeError"
                  "Class constructor Double cannot be invoked without 'new'")
  ∧ thenReturn mixed_failing 2 ≠ thenReturn functions_failing 2
  ∧ thenReturn mixed_failing 2 ≠ thenReturn classes_failing 2.
Proof.
  split; [|repeat split; try reflexivity; discriminate].
  intros T ps sh e rest v. unfold thenReturn, run.
  apply dispatch_raising. simpl. lia.
Qed.

End PipelineFacts.


(* ===================================================================== *)
(** * Properties of the container                                         *)
(* ===================================================================== *)

Module ContainerFacts.
Import Container.

Local Open Scope nat_scope.

Global Instance extends_preorder : PreOrder extends.
Proof.
  split.
  - intros st. split; try done. intros k Hk [v Hv]. congruence.
  - intros st1 st2 st3 [Hb1 Hk1 Hi1 Hs1 Hr1 Hh1] [Hb2 Hk2 Hi2 Hs2 Hr2 Hh2]. split.
    + congruence.
    + congruence.
    + by etrans.
    + intros k Hk Hk3. destruct (instances st2 !! k) as [v|] eqn:Hk'.
      * destruct (Hs1 k Hk) as [Hs Hr]; [by eexists|]. split; [done|].
        by apply Hr2.
      * destruct (Hs2 k Hk' Hk3) as [Hs Hr]. split; [|done].
        unfold isShared in *. by rewrite <- Hb1.
    + by etrans.
    + by etrans.
Qed.

Lemma extends_alloc cls args st : extends st (alloc cls args st).2.
Proof.
  split; simpl; try done.
  - intros k Hk [v Hv]. congruence.
  - by apply prefix_app_r.
Qed.

Lemma extends_resolved x st : extends st (set_resolved ({[x]} ∪ resolved st) st).
Proof.
  split; simpl; try done.
  - intros k Hk [v Hv]. congruence.
  - set_solver.
Qed.

Lemma extends_has st st' x : extends st st' → has st x = true → has st' x = true.
Proof.
  intros Hext. unfold has. rewrite (ext_bindings _ _ Hext).
  rewrite !orb_true_iff, !bool_decide_eq_true.
  intros [Hb|[v Hv]]; [by left|right].
  exists v. eapply lookup_weaken; [exact Hv | apply Hext].
Qed.

Lemma call_extends concrete st r st' :
  call concrete st = (r, st') → extends st st'.
Proof.
  unfold call. destruct concrete as [n|i d|c|f]; try (intros [= <- <-]; done).
  destruct (fac_recipe f) as [cls args|v|e]; try (intros [= <- <-]; done).
  pose proof (extends_alloc cls args st) as Halloc.
  destruct (alloc cls args st) as [v st1]. by intros [= <- <-].
Qed.

Lemma construct_extends concrete deps st r st' :
  construct concrete deps st = (r, st') → extends st st'.
Proof.
  unfold construct. destruct concrete as [n|i d|c|f]; try (intros [= <- <-]; done).
  pose proof (extends_alloc (cls_name c) deps st) as Halloc.
  destruct (alloc (cls_name c) deps st) as [v st1]. by intros [= <- <-].
Qed.

(** ** What every resolution preserves *)

Section Build.
Variable make_ : Abstract → State → Comp Value.
Variable parameters : gmap string Value.
Hypothesis make_extends_ : ∀ a st r st', make_ a st = Some (r, st') → extends st st'.

Lemma dependency_extends owner name index st r st' :
  dependency make_ parameters owner name index st = Some (r, st') → extends st st'.
Proof.
  unfold dependency. destruct (property parameters name) as [v|].
  - by intros [= <- <-].
  - destruct (has st (AName name)); [apply make_extends_ | by intros [= <- <-]].
Qed.

Lemma dependencies_extends owner names :
  ∀ index st r st',
    dependencies make_ parameters owner names index st = Some (r, st') →
    extends st st'.
Proof.
  induction names as [|name names IH]; intros index st r st'; simpl.
  - by intros [= <- <-].
  - destruct (dependency _ _ _ _ _ _) as [[[v|e] st1]|] eqn:Hdep; [| |done].
    + apply dependency_extends in Hdep.
      destruct (dependencies _ _ _ _ _ _) as [[[vs|e] st2]|] eqn:Hdeps; [| |done].
      * apply IH in Hdeps. intros [= <- <-]. by etrans.
      * apply IH in Hdeps. intros [= <- <-]. by etrans.
    + apply dependency_extends in Hdep. by intros [= <- <-].
Qed.

Lemma build_extends concrete st r st' :
  build make_ parameters concrete st = Some (r, st') → extends st st'.
Proof.
  unfold build. destruct (is_function concrete && negb (isClass concrete)).
  - intros [= Hcall]. by apply call_extends in Hcall.
  - destruct (dependencies _ _ _ _ _ _) as [[[deps|e] st1]|] eqn:Hdeps; [| |done].
    + apply dependencies_extends in Hdeps. intros [= Hc].
      apply construct_extends in Hc. by etrans.
    + apply dependencies_extends in Hdeps. by intros [= <- <-].
Qed.
End Build.

(** One level of [make], once the cache has missed. *)
Lemma make_unfold fuel abstract parameters st :
  instances st !! abstract = None →
  make (S fuel) abstract parameters st =
    match (if isBuildable (getConcrete st abstract) abstract
           then build (λ a, make fuel a ∅) parameters (getConcrete st abstract) st
           else make fuel (getConcrete st abstract) ∅ st) with
    | None => None
    | Some (Threw e, st1) => Some (Threw e, st1)
    | Some (Ok v, st1) =>
        let st2 := if isShared st1 abstract
                   then set_instances (<[abstract := v]> (instances st1)) st1
                   else st1 in
        Some (Ok v, set_resolved ({[abstract]} ∪ resolved st2) st2)
    end.
Proof. intros Hmiss. simpl. by rewrite Hmiss. Qed.

Lemma make_cached fuel abstract parameters st v :
  instances st !! abstract = Some v →
  make (S fuel) abstract parameters st = Some (Ok v, st).
Proof. intros Hhit. simpl. by rewrite Hhit. Qed.

Lemma make_extends fuel :
  ∀ abstract parameters st r st',
    make fuel abstract parameters st = Some (r, st') → extends st st'.
Proof.
  induction fuel as [|fuel IH]; intros abstract parameters st r st'; [done|].
  destruct (instances st !! abstract) as [v|] eqn:Hcache.
  - rewrite (make_cached _ _ _ _ _ Hcache). by intros [= <- <-].
  - rewrite make_unfold by done.
    set (inner := if isBuildable _ _ then _ else _).
    assert (Hinner : ∀ r1 st1, inner = Some (r1, st1) → extends st st1).
    { intros r1 st1. unfold inner. destruct (isBuildable _ _).
      - apply build_extends. intros a s r2 s2. apply IH.
      - apply IH. }
    destruct inner as [[[v|e] st1]|]; [| |done].
    + specialize (Hinner _ _ eq_refl). intros [= <- <-].
      destruct (isShared st1 abstract) eqn:Hshared;
        [|etrans; [exact Hinner | apply extends_resolved]].
      destruct Hinner as [Hb1 Hk1 Hi1 Hs1 Hr1 Hh1]. split; simpl; try done.
      * by apply insert_subseteq_r.
      * intros k Hk Hk'. destruct (decide (k = abstract)) as [->|Hne].
        -- split; [|apply elem_of_union_l; by apply elem_of_singleton].
           unfold isShared in *. by rewrite <- Hb1.
        -- rewrite lookup_insert_ne in Hk' by done.
           destruct (Hs1 k Hk Hk') as [Hs Hr]. split; [done|].
           by apply elem_of_union_r.
      * intros y Hy. apply elem_of_union_r. by apply Hr1.
    + specialize (Hinner _ _ eq_refl). by intros [= <- <-].
Qed.

Lemma make_bindings fuel abstract parameters st r st' :
  make fuel abstract parameters st = Some (r, st') → bindings st' = bindings st.
Proof. intros H. by destruct (make_extends _ _ _ _ _ _ H). Qed.

Lemma extends_getConcrete st st' x : extends st st' → getConcrete st' x = getConcrete st x.
Proof. intros H. unfold getConcrete. by rewrite (ext_bindings _ _ H). Qed.

Lemma extends_isShared st st' x : extends st st' → isShared st' x = isShared st x.
Proof. intros H. unfold isShared. by rewrite (ext_bindings _ _ H). Qed.

(** An identifier that is not shared is not cached by any resolution. *)
Lemma extends_transient st st' x :
  extends st st' → isShared st x = false → instances st !! x = None →
  instances st' !! x = None.
Proof.
  intros Hext Hshared Hmiss.
  destruct (instances st' !! x) as [v|] eqn:Hx; [|done].
  destruct (ext_shared _ _ Hext x Hmiss) as [Hs _]; [by exists v | congruence].
Qed.

(** A successful [make] records the identifier as resolved, and caches
    the object when the binding is shared. *)
Lemma make_ok_resolved fuel abstract parameters st v st' :
  make fuel abstract parameters st = Some (Ok v, st') →
  instances st !! abstract = None →
  abstract ∈ resolved st'
  ∧ (isShared st abstract = true → instances st' !! abstract = Some v).
Proof.
  destruct fuel as [|fuel]; [done|]. intros Hmake Hmiss.
  rewrite make_unfold in Hmake by done.
  set (inner := if isBuildable _ _ then _ else _) in Hmake.
  assert (Hinner : ∀ r1 st1, inner = Some (r1, st1) → extends st st1).
  { intros r1 st1. unfold inner. destruct (isBuildable _ _).
    - apply build_extends. intros a s r2 s2. apply make_extends.
    - apply make_extends. }
  destruct inner as [[[w|e] st1]|]; [|done|done].
  specialize (Hinner _ _ eq_refl). injection Hmake as <- <-.
  split; [simpl; set_solver|].
  intros Hshared. rewrite (extends_isShared _ _ _ Hinner), Hshared. simpl.
  apply lookup_insert_eq.
Qed.

(** ** Parameter names are shorter than the text they come from *)

Lemma strip_prefix_length p :
  ∀ s r, strip_prefix p s = Some r → String.length s = String.length p + String.length r.
Proof.
  induction p as [|a p IH]; intros s r; simpl.
  - by intros [= ->].
  - destruct s as [|b s]; [done|]. destruct (Ascii.eqb a b); [|done].
    intros H. apply IH in H. simpl. lia.
Qed.

Lemma after_first_length p s :
  ∀ r, after_first p s = Some r → String.length p + String.length r ≤ String.length s.
Proof.
  induction s as [|b s IH]; intros r; simpl.
  - destruct (strip_prefix p "") as [r'|] eqn:Hp; [|done].
    intros [= ->]. apply strip_prefix_length in Hp. simpl in Hp. lia.
  - destruct (strip_prefix p (String b s)) as [r'|] eqn:Hp.
    + intros [= ->]. apply strip_prefix_length in Hp. simpl in Hp. lia.
    + intros H. apply IH in H. lia.
Qed.

Lemma skip_to_length c s :
  ∀ r, skip_to c s = Some r → String.length r < String.length s.
Proof.
  induction s as [|a s IH]; intros r; simpl; [done|].
  destruct (Ascii.eqb a c).
  - intros [= ->]. lia.
  - intros H. apply IH in H. lia.
Qed.

Lemma take_to_length c s :
  ∀ r, take_to c s = Some r → String.length r < String.length s.
Proof.
  induction s as [|a s IH]; intros r; simpl; [done|].
  destruct (Ascii.eqb a c).
  - intros [= <-]. simpl. lia.
  - destruct (take_to c s) as [r'|]; [|done].
    intros [= <-]. specialize (IH _ eq_refl). simpl. lia.
Qed.

Lemma drop_spaces_length s : String.length (drop_spaces s) ≤ String.length s.
Proof.
  induction s as [|a s IH]; simpl; [done|].
  destruct (is_space a); simpl; lia.
Qed.

Lemma split_length c s :
  ∀ piece, piece ∈ split c s → String.length piece ≤ String.length s.
Proof.
  induction s as [|a s IH]; intros piece; simpl.
  - intros ->%list_elem_of_singleton. done.
  - destruct (Ascii.eqb a c).
    + intros [->|Hin]%elem_of_cons; simpl; [lia|]. apply IH in Hin. lia.
    + destruct (split c s) as [|p ps] eqn:Hsplit.
      * intros ->%list_elem_of_singleton. simpl. lia.
      * intros [->|Hin]%elem_of_cons; simpl.
        -- specialize (IH p ltac:(left)). lia.
        -- specialize (IH piece ltac:(by right)). lia.
Qed.

Lemma getParamNames_shorter fnStr name :
  name ∈ getParamNames fnStr → String.length name < String.length fnStr.
Proof.
  unfold getParamNames, argsMatch.
  destruct (after_first "constructor" fnStr) as [r1|] eqn:H1;
    [|by intros ?%elem_of_nil].
  destruct (skip_to "(" r1) as [r2|] eqn:H2; [|by intros ?%elem_of_nil].
  destruct (take_to ")" (drop_spaces r2)) as [group|] eqn:H3;
    [|by intros ?%elem_of_nil].
  intros [_ Hin]%list_elem_of_filter. apply split_length in Hin.
  apply after_first_length in H1. apply skip_to_length in H2.
  apply take_to_length in H3. pose proof (drop_spaces_length r2). lia.
Qed.

(** ** More fuel does not change a result *)

Section Mono.
Variables make1 make2 : Abstract → State → Comp Value.
Variable parameters : gmap string Value.
Hypothesis make_le : ∀ a st res, make1 a st = Some res → make2 a st = Some res.

Lemma dependency_mono owner name index st res :
  dependency make1 parameters owner name index st = Some res →
  dependency make2 parameters owner name index st = Some res.
Proof.
  unfold dependency. destruct (property parameters name); [done|].
  destruct (has st (AName name)); [apply make_le | done].
Qed.

Lemma dependencies_mono owner names :
  ∀ index st res,
    dependencies make1 parameters owner names index st = Some res →
    dependencies make2 parameters owner names index st = Some res.
Proof.
  induction names as [|name names IH]; intros index st res; simpl; [done|].
  destruct (dependency make1 _ _ _ _ _) as [[[v|e] st1]|] eqn:Hdep; [| |done].
  - rewrite (dependency_mono _ _ _ _ _ Hdep).
    destruct (dependencies make1 _ _ _ _ _) as [res1|] eqn:Hdeps; [|done].
    by rewrite (IH _ _ _ Hdeps).
  - by rewrite (dependency_mono _ _ _ _ _ Hdep).
Qed.

Lemma build_mono concrete st res :
  build make1 parameters concrete st = Some res →
  build make2 parameters concrete st = Some res.
Proof.
  unfold build. destruct (is_function concrete && negb (isClass concrete)); [done|].
  destruct (dependencies make1 _ _ _ _ _) as [res1|] eqn:Hdeps; [|done].
  by rewrite (dependencies_mono _ _ _ _ _ Hdeps).
Qed.
End Mono.

Lemma make_mono fuel :
  ∀ fuel' abstract parameters st res,
    fuel ≤ fuel' →
    make fuel abstract parameters st = Some res →
    make fuel' abstract parameters st = Some res.
Proof.
  induction fuel as [|fuel IH]; intros fuel' abstract parameters st res Hle; [done|].
  destruct fuel' as [|fuel']; [lia|]. simpl.
  destruct (instances st !! abstract); [done|].
  destruct (isBuildable _ _).
  - destruct (build (λ a, make fuel a ∅) _ _ _) as [res1|] eqn:Hbuild; [|done].
    erewrite build_mono; [done| |exact Hbuild].
    intros a s r. apply IH. lia.
  - destruct (make fuel _ ∅ st) as [res1|] eqn:Hmake; [|done].
    by rewrite (IH fuel' _ _ _ _ ltac:(lia) Hmake).
Qed.

(** ** Termination along the dependency graph *)

Lemma depends_bindings st st' x y :
  bindings st' = bindings st → depends st x y → depends st' x y.
Proof. intros Hb. unfold depends, getConcrete. by rewrite Hb. Qed.

Lemma calls_bindings st st' x y :
  bindings st' = bindings st → calls st x y → calls st' x y.
Proof. intros Hb. unfold calls, getConcrete. by rewrite Hb. Qed.

Lemma calls_depends st x y : calls st x y → depends st x y.
Proof.
  unfold calls, depends. destruct (isBuildable _ _); [|done].
  intros (Hclass & name & -> & Hname & _). eauto.
Qed.

(** What the record of overrides does not answer is not a member of
    [Object.prototype], and the default record answers nothing else. *)
Lemma property_none parameters name :
  property parameters name = None → name ∉ Object_prototype.
Proof.
  unfold property. destruct (parameters !! name); [done|].
  case_bool_decide; done.
Qed.

Lemma property_default name :
  name ∉ Object_prototype → property ∅ name = None.
Proof.
  intros Hname. unfold property. rewrite lookup_empty.
  by rewrite bool_decide_eq_false_2.
Qed.

Section Terminates.
Variable st0 : State.
Variable x : Abstract.
Hypothesis below :
  ∀ y, depends st0 x y → ∀ st parameters,
    bindings st = bindings st0 →
    ∃ fuel res, make fuel y parameters st = Some res.

Lemma dependencies_terminate parameters names :
  (∀ name, name ∈ names → depends st0 x (AName name)) →
  ∀ index st, bindings st = bindings st0 →
    ∃ fuel res,
      dependencies (λ a, make fuel a ∅) parameters (getConcrete st0 x) names index st
      = Some res.
Proof.
  induction names as [|name names IH]; intros Hnames index st Hb.
  - exists 0. by eexists.
  - assert (Hhead : ∃ fuel r st1,
      dependency (λ a, make fuel a ∅) parameters (getConcrete st0 x) name index st
      = Some (r, st1)).
    { unfold dependency. destruct (property parameters name) as [v|].
      - exists 0. by eexists _, _.
      - destruct (has st (AName name)).
        + destruct (below (AName name) (Hnames name ltac:(left)) st ∅ Hb)
            as (fuel & [r st1] & Hmake).
          by exists fuel, r, st1.
        + exists 0. by eexists _, _. }
    destruct Hhead as (fuel1 & r & st1 & Hhead).
    assert (Hb1 : bindings st1 = bindings st0).
    { apply dependency_extends in Hhead.
      - by rewrite (ext_bindings _ _ Hhead).
      - intros a s r2 s2. apply make_extends. }
    destruct (IH (λ n Hn, Hnames n ltac:(by right)) (S index) st1 Hb1)
      as (fuel2 & res2 & Htail).
    exists (fuel1 `max` fuel2). simpl.
    erewrite dependency_mono; [| |exact Hhead];
      [|intros a s res; apply make_mono; lia].
    destruct r as [v|e]; [|by eexists].
    erewrite dependencies_mono; [| |exact Htail];
      [|intros a s res; apply make_mono; lia].
    destruct res2 as [[vs|e] st2]; by eexists.
Qed.

Lemma make_terminates_here parameters st :
  bindings st = bindings st0 →
  ∃ fuel res, make fuel x parameters st = Some res.
Proof.
  intros Hb.
  destruct (instances st !! x) as [v|] eqn:Hcache.
  { exists 1. rewrite (make_cached _ _ _ _ _ Hcache). by eexists. }
  assert (Hconcrete : getConcrete st x = getConcrete st0 x).
  { unfold getConcrete. by rewrite Hb. }
  assert (Hinner : ∃ fuel res,
    (if isBuildable (getConcrete st x) x
     then build (λ a, make fuel a ∅) parameters (getConcrete st x) st
     else make fuel (getConcrete st x) ∅ st) = Some res).
  { rewrite Hconcrete.
    destruct (isBuildable (getConcrete st0 x) x) eqn:Hbuildable.
    - unfold build.
      destruct (is_function _ && negb (isClass _)) eqn:Hfactory.
      + exists 0. by eexists.
      + destruct (dependencies_terminate parameters
                    (getParamNames (toString (getConcrete st0 x)))) with (index := 0) (st := st)
          as (fuel & [[deps|e] st1] & Hdeps); [|done| |].
        * intros name Hname. unfold depends. rewrite Hbuildable. eauto.
        * exists fuel. rewrite Hdeps. by eexists.
        * exists fuel. rewrite Hdeps. by eexists.
    - apply below; [|done]. unfold depends. by rewrite Hbuildable. }
  destruct Hinner as (fuel & [r st1] & Hinner).
  exists (S fuel). rewrite make_unfold by done. rewrite Hinner.
  destruct r; by eexists.
Qed.
End Terminates.

Lemma make_terminates_acc st0 x :
  Acc (dependency_of st0) x →
  ∀ st parameters, bindings st = bindings st0 →
    ∃ fuel res, make fuel x parameters st = Some res.
Proof.
  induction 1 as [x _ IH]. intros st parameters Hb.
  apply (make_terminates_here st0 x); [|done].
  intros y Hy. by apply IH.
Qed.

(** The resolution of an identifier that depends on itself recurses
    without end. *)
Lemma cyclic_make_diverges fuel : make fuel (AName "loop") ∅ cyclic = None.
Proof.
  induction fuel as [|fuel IH]; [done|].
  rewrite make_unfold by (vm_compute; reflexivity).
  replace (getConcrete cyclic (AName "loop")) with (AClass Loop)
    by (vm_compute; reflexivity).
  replace (isBuildable (AClass Loop) (AName "loop")) with true by reflexivity.
  unfold build.
  replace (is_function (AClass Loop) && negb (isClass (AClass Loop))) with false
    by (vm_compute; reflexivity).
  replace (getParamNames (toString (AClass Loop))) with ["loop"]
    by (vm_compute; reflexivity).
  simpl dependencies. unfold dependency.
  replace (property ∅ "loop") with (@None Value) by (vm_compute; reflexivity).
  replace (has cyclic (AName "loop")) with true by (vm_compute; reflexivity).
  by rewrite IH.
Qed.

(** ** Identifiers that cannot be resolved before one another

    [trapped] is a set of identifiers each of which depends on a member of
    the set.  While none of them is cached, no resolution caches one, and
    resolving one of them does not return. *)

Section Trap.
Variable st0 : State.
Variable trapped : Abstract → Prop.
Hypothesis trap : ∀ b, trapped b → ∃ b', trapped b' ∧ calls st0 b b'.

Local Abbreviation safe := (Container.safe st0 trapped).

Lemma call_safe concrete s r s' : safe s → call concrete s = (r, s') → safe s'.
Proof.
  intros Hsafe. unfold call.
  destruct concrete as [n|i d|c|f]; try (by intros [= <- <-]).
  destruct (fac_recipe f) as [cls args|v|e]; by intros [= <- <-].
Qed.

Lemma construct_safe concrete deps s r s' :
  safe s → construct concrete deps s = (r, s') → safe s'.
Proof.
  intros Hsafe. unfold construct.
  destruct concrete as [n|i d|c|f]; by intros [= <- <-].
Qed.

Section Build.
Variable make_ : Abstract → State → Comp Value.
Hypothesis make_trapped_ : ∀ x s r s',
  safe s → make_ x s = Some (r, s') → safe s' ∧ (trapped x → ∃ e, r = Threw e).

Lemma dependency_safe parameters owner name index s r s' :
  safe s → dependency make_ parameters owner name index s = Some (r, s') → safe s'.
Proof.
  intros Hsafe. unfold dependency. destruct (property parameters name) as [v|].
  - by intros [= <- <-].
  - destruct (has s (AName name)); [|by intros [= <- <-]].
    intros Hmake. by apply make_trapped_ in Hmake as [? _].
Qed.

Lemma dependencies_safe parameters owner names :
  ∀ index s r s',
    safe s → dependencies make_ parameters owner names index s = Some (r, s') →
    safe s'.
Proof.
  induction names as [|name names IH]; intros index s r s' Hsafe; simpl.
  - by intros [= <- <-].
  - destruct (dependency _ _ _ _ _ _) as [[[v|e] s1]|] eqn:Hdep; [| |done].
    + apply dependency_safe in Hdep; [|done].
      destruct (dependencies _ _ _ _ _ _) as [[[vs|e] s2]|] eqn:Hdeps; [| |done].
      * intros [= <- <-]. eapply IH; [exact Hdep | exact Hdeps].
      * intros [= <- <-]. eapply IH; [exact Hdep | exact Hdeps].
    + intros [= <- <-]. by eapply dependency_safe.
Qed.

Lemma dependencies_trapped owner names :
  ∀ index s r s',
    safe s → dependencies make_ ∅ owner names index s = Some (r, s') →
    ∀ name, name ∈ names → name ∉ Object_prototype → trapped (AName name) →
            ∃ e, r = Threw e.
Proof.
  induction names as [|name names IH];
    intros index s r s' Hsafe Hrun n Hn Hplain Htrapped.
  - by apply elem_of_nil in Hn.
  - simpl in Hrun.
    destruct (dependency _ _ _ _ _ _) as [[[v|e] s1]|] eqn:Hdep; [| |done].
    + pose proof (dependency_safe _ _ _ _ _ _ _ Hsafe Hdep) as Hsafe1.
      apply elem_of_cons in Hn as [->|Hn].
      * unfold dependency in Hdep. rewrite (property_default _ Hplain) in Hdep.
        destruct (has s (AName name)); [|done].
        apply make_trapped_ in Hdep as [_ Hfail]; [|done].
        by destruct (Hfail Htrapped).
      * destruct (dependencies _ _ _ _ _ _) as [[[vs|e] s2]|] eqn:Hdeps; [| |done].
        -- destruct (IH _ _ _ _ Hsafe1 Hdeps n Hn Hplain Htrapped) as [e He]. done.
        -- injection Hrun as <- <-. by eexists.
    + injection Hrun as <- <-. by eexists.
Qed.

Lemma build_safe parameters concrete s r s' :
  safe s → build make_ parameters concrete s = Some (r, s') → safe s'.
Proof.
  intros Hsafe. unfold build.
  destruct (is_function concrete && negb (isClass concrete)).
  - intros [= Hcall]. by eapply call_safe.
  - destruct (dependencies _ _ _ _ _ _) as [[[deps|e] s1]|] eqn:Hdeps; [| |done].
    + apply dependencies_safe in Hdeps; [|done].
      intros [= Hc]. by eapply construct_safe.
    + intros [= <- <-]. by eapply dependencies_safe.
Qed.

Lemma build_trapped concrete s r s' name :
  safe s → build make_ ∅ concrete s = Some (r, s') →
  (is_function concrete && negb (isClass concrete)) = false →
  name ∈ getParamNames (toString concrete) → name ∉ Object_prototype →
  trapped (AName name) →
  ∃ e, r = Threw e.
Proof.
  intros Hsafe Hbuild Hclass Hname Hplain Htrapped. unfold build in Hbuild.
  rewrite Hclass in Hbuild.
  destruct (dependencies _ _ _ _ _ _) as [[[deps|e] s1]|] eqn:Hdeps; [| |done].
  - by destruct (dependencies_trapped _ _ _ _ _ _ Hsafe Hdeps name Hname Hplain Htrapped).
  - injection Hbuild as <- <-. by eexists.
Qed.
End Build.

Lemma make_trapped fuel :
  ∀ x s r s',
    safe s → make fuel x ∅ s = Some (r, s') →
    safe s' ∧ (trapped x → ∃ e, r = Threw e).
Proof.
  induction fuel as [|fuel IH]; intros x s r s' Hsafe Hmake; [done|].
  destruct (instances s !! x) as [v|] eqn:Hcache.
  { rewrite (make_cached _ _ _ _ _ Hcache) in Hmake. injection Hmake as <- <-.
    split; [done|]. intros Hx. destruct Hsafe as [_ Hsafe].
    rewrite (Hsafe x Hx) in Hcache. done. }
  rewrite make_unfold in Hmake by done.
  set (inner := if isBuildable _ _ then _ else _) in Hmake.
  assert (Hinner : ∀ r1 s1, inner = Some (r1, s1) →
            safe s1 ∧ (trapped x → ∃ e, r1 = Threw e)).
  { intros r1 s1 Hrun. unfold inner in Hrun.
    assert (Hdep : ∀ y, calls st0 x y → calls s x y).
    { intros y. apply calls_bindings. apply Hsafe. }
    destruct (isBuildable (getConcrete s x) x) eqn:Hbuildable.
    - split; [by eapply build_safe; [exact IH| |exact Hrun]|].
      intros Hx. destruct (trap x Hx) as (b' & Hb' & Hxb').
      apply Hdep in Hxb'. unfold calls in Hxb'. rewrite Hbuildable in Hxb'.
      destruct Hxb' as (Hclass & name & -> & Hname & Hplain).
      by eapply build_trapped; [exact IH| |exact Hrun| | | |].
    - destruct (IH _ _ _ _ Hsafe Hrun) as [Hsafe1 Hfail]. split; [done|].
      intros Hx. destruct (trap x Hx) as (b' & Hb' & Hxb').
      apply Hdep in Hxb'. unfold calls in Hxb'. rewrite Hbuildable in Hxb'.
      subst b'. by apply Hfail. }
  destruct inner as [[[v|e] s1]|]; [| |done].
  - destruct (Hinner _ _ eq_refl) as [[Hb1 Hsafe1] Hfail].
    injection Hmake as <- <-. split.
    + split; [by destruct (isShared s1 x)|]. intros b Hb.
      destruct (isShared s1 x); simpl; [|by apply Hsafe1].
      destruct (decide (x = b)) as [->|Hne].
      * by destruct (Hfail Hb).
      * rewrite lookup_insert_ne by done. by apply Hsafe1.
    + intros Hx. by destruct (Hfail Hx).
  - destruct (Hinner _ _ eq_refl) as [Hsafe1 _]. injection Hmake as <- <-.
    split; [done|]. by eexists.
Qed.
End Trap.

(** ** Where a new cache entry comes from *)

Lemma chain_uncached st k x : chain st k x → instances st !! x = None.
Proof. by destruct 1. Qed.

Lemma extends_uncached st s x :
  extends st s → instances s !! x = None → instances st !! x = None.
Proof.
  intros Hext Hx. destruct (instances st !! x) as [v|] eqn:Hv; [|done].
  rewrite (lookup_weaken _ _ _ _ Hv (ext_instances _ _ Hext)) in Hx. done.
Qed.

Lemma chain_weaken st s k x : extends st s → chain s k x → chain st k x.
Proof.
  intros Hext. induction 1 as [Hk|x y Hx Hdep _ IH].
  - apply chain_here. by eapply extends_uncached.
  - eapply chain_step; [by eapply extends_uncached| |exact IH].
    eapply calls_bindings; [|exact Hdep]. symmetry. apply Hext.
Qed.

Section Path.
Variable make_ : Abstract → State → Comp Value.
Variable parameters : gmap string Value.
Hypothesis make_extends_ : ∀ a st r st', make_ a st = Some (r, st') → extends st st'.
Hypothesis make_path_ : ∀ x s r s' k,
  make_ x s = Some (r, s') → instances s !! k = None → is_Some (instances s' !! k) →
  chain s k x.

Lemma dependencies_path owner names :
  ∀ index s r s' k,
    dependencies make_ parameters owner names index s = Some (r, s') →
    instances s !! k = None → is_Some (instances s' !! k) →
    ∃ name, name ∈ names ∧ (name ∉ Object_prototype) ∧ chain s k (AName name).
Proof.
  induction names as [|name names IH]; intros index s r s' k Hrun Hk Hk'.
  - simpl in Hrun. injection Hrun as <- <-. destruct Hk' as [v Hv]. congruence.
  - simpl in Hrun.
    destruct (dependency _ _ _ _ _ _) as [[r1 s1]|] eqn:Hdep; [|done].
    assert (Hhead : is_Some (instances s1 !! k) →
              (name ∉ Object_prototype) ∧ chain s k (AName name)).
    { intros Hk1. unfold dependency in Hdep.
      destruct (property parameters name) as [v|] eqn:Hproperty.
      { injection Hdep as <- <-. destruct Hk1 as [w Hw]. congruence. }
      split; [by eapply property_none|].
      destruct (has s (AName name)).
      - by eapply make_path_.
      - injection Hdep as <- <-. destruct Hk1 as [w Hw]. congruence. }
    destruct (instances s1 !! k) as [w|] eqn:Hk1.
    { exists name. split; [by left | apply Hhead; by eexists]. }
    destruct r1 as [v|e].
    + destruct (dependencies _ _ _ _ _ _) as [[r2 s2]|] eqn:Hdeps; [|done].
      assert (s2 = s') as -> by (by destruct r2; injection Hrun as <- <-).
      destruct (IH _ _ _ _ _ Hdeps Hk1 Hk') as (n & Hn & Hplain & Hchain).
      exists n. split; [by right|]. split; [done|].
      eapply chain_weaken; [|exact Hchain].
      eapply dependency_extends; [exact make_extends_ | exact Hdep].
    + injection Hrun as <- <-. destruct Hk' as [w Hw]. congruence.
Qed.

Lemma build_path concrete s r s' k :
  build make_ parameters concrete s = Some (r, s') →
  instances s !! k = None → is_Some (instances s' !! k) →
  (is_function concrete && negb (isClass concrete)) = false
  ∧ ∃ name, name ∈ getParamNames (toString concrete) ∧ (name ∉ Object_prototype)
            ∧ chain s k (AName name).
Proof.
  unfold build. intros Hbuild Hk Hk'.
  destruct (is_function concrete && negb (isClass concrete)).
  - injection Hbuild as Hcall. exfalso. destruct Hk' as [w Hw].
    unfold call in Hcall. destruct concrete as [n|i d|c|f];
      try (injection Hcall as <- <-; congruence).
    destruct (fac_recipe f); injection Hcall as <- <-; simpl in Hw; congruence.
  - split; [done|].
    destruct (dependencies _ _ _ _ _ _) as [[[deps|e] s1]|] eqn:Hdeps; [| |done].
    + eapply dependencies_path; [exact Hdeps | done |].
      injection Hbuild as Hc. unfold construct in Hc.
      destruct concrete as [n|i d|c|f]; injection Hc as <- <-; done.
    + injection Hbuild as <- <-. by eapply dependencies_path.
Qed.
End Path.

Lemma make_path fuel :
  ∀ x parameters s r s' k,
    make fuel x parameters s = Some (r, s') →
    instances s !! k = None → is_Some (instances s' !! k) →
    chain s k x.
Proof.
  induction fuel as [|fuel IH]; intros x parameters s r s' k Hmake Hk Hk'; [done|].
  destruct (instances s !! x) as [v|] eqn:Hcache.
  { rewrite (make_cached _ _ _ _ _ Hcache) in Hmake. injection Hmake as <- <-.
    destruct Hk' as [w Hw]. congruence. }
  rewrite make_unfold in Hmake by done.
  set (inner := if isBuildable _ _ then _ else _) in Hmake.
  assert (Hinner : ∀ r1 s1, inner = Some (r1, s1) →
            is_Some (instances s1 !! k) → chain s k x).
  { intros r1 s1 Hrun Hk1. unfold inner in Hrun.
    destruct (isBuildable (getConcrete s x) x) eqn:Hbuildable.
    - destruct (build_path (λ a, make fuel a ∅) parameters
                  (λ a st r2 st2, make_extends fuel a ∅ st r2 st2)
                  (λ y, IH y ∅) _ _ _ _ _ Hrun Hk Hk1)
        as (Hclass & name & Hname & Hplain & Hchain).
      eapply chain_step; [done| |exact Hchain].
      unfold calls. rewrite Hbuildable. eauto.
    - eapply chain_step; [done| |by eapply IH].
      unfold calls. by rewrite Hbuildable. }
  destruct inner as [[[v|e] s1]|]; [| |done].
  - injection Hmake as <- <-.
    destruct (instances s1 !! k) as [w|] eqn:Hk1.
    { eapply Hinner; [done | by rewrite Hk1]. }
    destruct (isShared s1 x); simpl in Hk'; [|destruct Hk'; congruence].
    destruct (decide (x = k)) as [->|Hne]; [by apply chain_here|].
    rewrite lookup_insert_ne in Hk' by done. destruct Hk'; congruence.
  - injection Hmake as <- <-. by eapply Hinner.
Qed.

(** A [make] that throws leaves no cache entry under its identifier. *)
Lemma failed_make_uncached fuel abstract parameters st e st' :
  make fuel abstract parameters st = Some (Threw e, st') →
  instances st' !! abstract = None.
Proof.
  destruct fuel as [|fuel]; [done|]. intros Hmake.
  destruct (instances st !! abstract) as [v|] eqn:Hcache.
  { by rewrite (make_cached _ _ _ _ _ Hcache) in Hmake. }
  rewrite make_unfold in Hmake by done.
  set (inner := if isBuildable _ _ then _ else _) in Hmake.
  destruct inner as [[[v|e1] s1]|] eqn:Hinner; [done| |done].
  injection Hmake as <- <-.
  destruct (instances s1 !! abstract) as [w|] eqn:Hentry; [exfalso|done].
  (* an identifier below [abstract] reaches it through uncached identifiers *)
  assert (Hcycle : ∃ y, calls st abstract y ∧ chain st abstract y).
  { unfold inner in Hinner.
    destruct (isBuildable (getConcrete st abstract) abstract) eqn:Hbuildable.
    - destruct (build_path (λ a, make fuel a ∅) parameters
                  (λ a s r2 s2, make_extends fuel a ∅ s r2 s2)
                  (λ y, make_path fuel y ∅) _ _ _ _ abstract Hinner Hcache
                  ltac:(by eexists))
        as (Hclass & name & Hname & Hplain & Hchain).
      exists (AName name). split; [|done].
      unfold calls. rewrite Hbuildable. eauto.
    - exists (getConcrete st abstract). split.
      + unfold calls. by rewrite Hbuildable.
      + eapply make_path; [exact Hinner|done|by eexists]. }
  destruct Hcycle as (y & Hy & Hchain).
  assert (Htrap : ∀ b, chain st abstract b →
            ∃ b', chain st abstract b' ∧ calls st b b').
  { intros b Hb. destruct Hb as [_|b b' _ Hdep Hb']; eauto. }
  assert (Hsafe : safe st (chain st abstract) st).
  { split; [done|]. intros b. apply chain_uncached. }
  assert (Hsafe1 : safe st (chain st abstract) s1).
  { unfold inner in Hinner. destruct (isBuildable _ _).
    - eapply build_safe; [|exact Hsafe|exact Hinner].
      intros x s r s'. by apply make_trapped.
    - by eapply make_trapped. }
  destruct Hsafe1 as [_ Hsafe1].
  rewrite Hsafe1 in Hentry; [done | by apply chain_here].
Qed.

(** ** The claims about the container: termination and failure *)

Lemma manual_bind_acyclic : well_founded (dependency_of manual_bind).
Proof.
  apply (well_founded_lt_compat _ manual_bind_rank).
  intros y x Hdep. unfold dependency_of, depends in Hdep.
  assert (Hname : ∀ name, manual_bind_rank (AName name) ≤ S (String.length name)).
  { intros name. simpl. destruct (String.eqb name "bar"); lia. }
  destruct (decide (x = AClass Baz)) as [->|HBaz].
  { vm_compute in Hdep. destruct Hdep as (_ & name & -> & Hin).
    apply list_elem_of_singleton in Hin as ->. vm_compute. lia. }
  destruct (decide (x = AName "bar")) as [->|Hbar].
  { vm_compute in Hdep. destruct Hdep as (_ & name & _ & Hin).
    by apply elem_of_nil in Hin. }
  assert (Hconcrete : getConcrete manual_bind x = x).
  { unfold getConcrete, manual_bind, bind. simpl.
    by rewrite !lookup_insert_ne, lookup_empty. }
  rewrite Hconcrete in Hdep.
  assert (Hbuildable : isBuildable x x = true).
  { unfold isBuildable. by rewrite bool_decide_eq_true_2. }
  rewrite Hbuildable in Hdep. destruct Hdep as (Hclass & name & -> & Hin).
  apply getParamNames_shorter in Hin. specialize (Hname name).
  destruct x as [s|i d|c|f]; simpl in *; [| | |done].
  - destruct (String.eqb_spec s "bar") as [->|_]; [done|lia].
  - lia.
  - lia.
Qed.

(** C10.  When the dependency graph of a state is well founded, [make]
    returns or throws for every identifier and all overrides: some amount
    of fuel is enough.  No call of [make] touches [buildStack], and with
    a cycle in the graph the resolution recurses without end:
    [bind('loop', Loop)], where [Loop] takes a parameter [loop], makes
    [make('loop')] run out of any fuel. *)
Theorem make_terminates_when_acyclic :
  (∀ st, well_founded (dependency_of st) →
     ∀ abstract parameters, ∃ fuel r st',
       make fuel abstract parameters st = Some (r, st'))
  ∧ (∀ fuel abstract parameters st r st',
       make fuel abstract parameters st = Some (r, st') →
       buildStack st' = buildStack st)
  ∧ (depends cyclic (AName "loop") (AName "loop")
     ∧ ∀ fuel, make fuel (AName "loop") ∅ cyclic = None).
Proof.
  split; [|split; [|split]].
  - intros st Hwf abstract parameters.
    destruct (make_terminates_acc st abstract (Hwf abstract) st parameters eq_refl)
      as (fuel & [r st'] & Hmake).
    by exists fuel, r, st'.
  - intros fuel abstract parameters st r st' Hmake.
    apply (ext_stack _ _ (make_extends _ _ _ _ _ _ Hmake)).
  - vm_compute. split; [done|]. exists "loop". split; [done|]. by left.
  - apply cyclic_make_diverges.
Qed.

Lemma make_terminates_when_acyclic_witness :
  (∃ fuel r st', make fuel (AClass Baz) ∅ manual_bind = Some (r, st'))
  ∧ buildStack (after 3 (AClass Baz) ∅ manual_bind) = buildStack manual_bind.
Proof.
  split.
  - apply (proj1 make_terminates_when_acyclic manual_bind manual_bind_acyclic).
  - apply (proj1 (proj2 make_terminates_when_acyclic) 3 (AClass Baz) ∅ manual_bind
             (Ok (VRef 1))).
    vm_compute. reflexivity.
Defined.

(** C5 (as stated, refuted).  ['a'] is a singleton, [Pair] takes the
    parameters [a] and [b], and nothing is bound for the second one.
    [make(Pair)] resolves and caches ['a'], then throws for the second
    parameter: the failed call has changed the instances map. *)
Lemma failed_make_keeps_resolved_dependency :
  instances second_unbound = ∅
  ∧ (∃ e, make 3 (AClass Pair) ∅ second_unbound
          = Some (Threw e, after 3 (AClass Pair) ∅ second_unbound))
  ∧ instances (after 3 (AClass Pair) ∅ second_unbound) !! AName "a" = Some (VRef 0)
  ∧ instances (after 3 (AClass Pair) ∅ second_unbound) ≠ instances second_unbound.
Proof.
  split; [reflexivity|]. split; [eexists; vm_compute; reflexivity|].
  split; [vm_compute; reflexivity|].
  intros Heq. apply (f_equal (λ m, m !! AName "a")) in Heq.
  vm_compute in Heq. discriminate.
Qed.

(** C5 (amended).  A [make] that throws leaves no cache entry under the
    identifier it was asked for.  The entries the cache had are kept; the
    entries it gained are those of shared bindings other than that
    identifier, resolved as dependencies before the error, each recorded
    in the resolved set. *)
Theorem failed_make_leaves_no_entry fuel abstract parameters st e st' :
  make fuel abstract parameters st = Some (Threw e, st') →
  instances st' !! abstract = None
  ∧ instances st ⊆ instances st'
  ∧ (∀ k, instances st !! k = None → is_Some (instances st' !! k) →
          k ≠ abstract ∧ isShared st k = true ∧ k ∈ resolved st').
Proof.
  intros Hmake.
  pose proof (failed_make_uncached _ _ _ _ _ _ Hmake) as Hnone.
  pose proof (make_extends _ _ _ _ _ _ Hmake) as Hext.
  split; [done|]. split; [apply Hext|].
  intros k Hk Hk'. split.
  - intros ->. destruct Hk'. congruence.
  - by apply Hext.
Qed.

Lemma failed_make_leaves_no_entry_witness :
  instances (after 3 (AClass Pair) ∅ second_unbound) !! AClass Pair = None
  ∧ instances second_unbound ⊆ instances (after 3 (AClass Pair) ∅ second_unbound)
  ∧ (∀ k, instances second_unbound !! k = None →
          is_Some (instances (after 3 (AClass Pair) ∅ second_unbound) !! k) →
          k ≠ AClass Pair ∧ isShared second_unbound k = true
          ∧ k ∈ resolved (after 3 (AClass Pair) ∅ second_unbound)).
Proof.
  apply (failed_make_leaves_no_entry 3 (AClass Pair) ∅ second_unbound
           (CannotResolve " b" 1 "Pair")).
  vm_compute. reflexivity.
Defined.

(** ** Producers that allocate *)

Lemma make_allocates fuel abstract parameters st v st' :
  instances st !! abstract = None →
  allocates (getConcrete st abstract) →
  make fuel abstract parameters st = Some (Ok v, st') →
  ∃ n, v = VRef n ∧ length (heap st) ≤ n < length (heap st').
Proof.
  destruct fuel as [|fuel]; [done|]. intros Hmiss Halloc Hmake.
  rewrite make_unfold in Hmake by done.
  set (concrete := getConcrete st abstract) in *.
  assert (Hfun : is_function concrete = true) by (by destruct concrete).
  assert (Hbuildable : isBuildable concrete abstract = true).
  { unfold isBuildable. rewrite Hfun. apply orb_true_r. }
  rewrite Hbuildable in Hmake.
  assert (Hbuilt : ∀ w st1,
    build (λ a, make fuel a ∅) parameters concrete st = Some (Ok w, st1) →
    ∃ n, w = VRef n ∧ length (heap st) ≤ n < length (heap st1)).
  { intros w st1. unfold build. rewrite Hfun. simpl.
    destruct concrete as [?|? ?|c|f]; try done; simpl in *.
    - rewrite Halloc. simpl.
      destruct (dependencies _ _ _ _ _ _) as [[[deps|e] st0]|] eqn:Hdeps; [|done|done].
      apply dependencies_extends in Hdeps; [|intros a s r2 s2; apply make_extends].
      intros [= <- <-]. exists (length (heap st0)). split; [done|].
      apply ext_heap, prefix_length in Hdeps. simpl.
      rewrite length_app. simpl. lia.
    - destruct Halloc as (cls & args & ->). intros [= <- <-].
      exists (length (heap st)). split; [done|]. simpl.
      rewrite length_app. simpl. lia. }
  destruct (build _ _ _ _) as [[[w|e] st1]|]; [|done|done].
  destruct (Hbuilt _ _ eq_refl) as (n & -> & Hn).
  injection Hmake as <- <-. exists n. split; [done|].
  by destruct (isShared st1 abstract).
Qed.

(** ** The claims about the container: caching *)

(** C9 (as stated, refuted).  [Baz] is bound transient and takes a
    parameter [bar]; ['bar'] is a singleton.  [make(Baz)] succeeds and
    leaves a cache entry for ['bar'], so the instances map is changed. *)
Lemma transient_make_caches_shared_dependency :
  isShared shared_dependency (AClass Baz) = false
  ∧ instances shared_dependency !! AClass Baz = None
  ∧ make 3 (AClass Baz) ∅ shared_dependency
    = Some (Ok (VRef 1), after 3 (AClass Baz) ∅ shared_dependency)
  ∧ instances (after 3 (AClass Baz) ∅ shared_dependency) !! AName "bar" = Some (VRef 0)
  ∧ instances (after 3 (AClass Baz) ∅ shared_dependency) ≠ instances shared_dependency.
Proof.
  repeat split; try (vm_compute; reflexivity).
  intros Heq. apply (f_equal (λ m, m !! AName "bar")) in Heq.
  vm_compute in Heq. discriminate.
Qed.

(** C9 (amended).  A successful [make] of an identifier that is not
    shared and not cached leaves the bindings unchanged and caches
    nothing under that identifier, so [has] answers the same before and
    after; the instances map keeps every entry and gains entries only for
    shared bindings (the dependencies resolved on the way); the
    identifier is in the resolved set afterwards. *)
Theorem transient_make_frame fuel abstract parameters st v st' :
  isShared st abstract = false →
  instances st !! abstract = None →
  make fuel abstract parameters st = Some (Ok v, st') →
  bindings st' = bindings st
  ∧ instances st' !! abstract = None
  ∧ has st' abstract = has st abstract
  ∧ instances st ⊆ instances st'
  ∧ (∀ k, instances st !! k = None → is_Some (instances st' !! k) →
          isShared st k = true)
  ∧ abstract ∈ resolved st'.
Proof.
  intros Hshared Hmiss Hmake.
  pose proof (make_extends _ _ _ _ _ _ Hmake) as Hext.
  pose proof (extends_transient _ _ _ Hext Hshared Hmiss) as Hmiss'.
  split; [apply Hext|]. split; [done|]. split.
  { unfold has. by rewrite (ext_bindings _ _ Hext), Hmiss, Hmiss'. }
  split; [apply Hext|]. split; [intros k Hk Hk'; by apply Hext|].
  by apply (make_ok_resolved _ _ _ _ _ _ Hmake).
Qed.

Lemma transient_make_frame_witness :
  bindings (after 3 (AClass Baz) ∅ manual_bind) = bindings manual_bind
  ∧ instances (after 3 (AClass Baz) ∅ manual_bind) !! AClass Baz = None
  ∧ has (after 3 (AClass Baz) ∅ manual_bind) (AClass Baz) = has manual_bind (AClass Baz)
  ∧ instances manual_bind ⊆ instances (after 3 (AClass Baz) ∅ manual_bind)
  ∧ (∀ k, instances manual_bind !! k = None →
          is_Some (instances (after 3 (AClass Baz) ∅ manual_bind) !! k) →
          isShared manual_bind k = true)
  ∧ AClass Baz ∈ resolved (after 3 (AClass Baz) ∅ manual_bind).
Proof.
  apply (transient_make_frame 3 (AClass Baz) ∅ manual_bind (VRef 1)).
  - vm_compute. reflexivity.
  - vm_compute. reflexivity.
  - vm_compute. reflexivity.
Defined.

(** C7 (as stated, refuted).  [Foo] is bound transient to itself and an
    instance is registered for it: two successive calls of [make(Foo)]
    return the registered object, although the binding is not shared and
    its producer makes a new object at every call. *)
Lemma transient_binding_with_instance_repeats :
  isShared registered (AClass Foo) = false
  ∧ bindings registered !! AClass Foo = Some (mkConcrete (AClass Foo) false)
  ∧ allocates (getConcrete registered (AClass Foo))
  ∧ make 2 (AClass Foo) ∅ registered = Some (Ok (VRef 0), registered)
  ∧ make 2 (AClass Foo) ∅ (after 2 (AClass Foo) ∅ registered)
    = Some (Ok (VRef 0), registered).
Proof. repeat split; vm_compute; reflexivity. Qed.

(** C7 (amended).  Of two successive calls of [make] for one identifier
    that both return: when the binding is shared they return the same
    object; when it is not shared, no instance is cached for the
    identifier and the producer makes a new object at every call, they
    return distinct objects. *)
Theorem successive_makes fuel fuel' abstract parameters parameters' st v1 st1 v2 st2 :
  make fuel abstract parameters st = Some (Ok v1, st1) →
  make fuel' abstract parameters' st1 = Some (Ok v2, st2) →
  (isShared st abstract = true → v2 = v1 ∧ st2 = st1)
  ∧ (isShared st abstract = false → instances st !! abstract = None →
     allocates (getConcrete st abstract) → v2 ≠ v1).
Proof.
  intros Hfirst Hsecond.
  pose proof (make_extends _ _ _ _ _ _ Hfirst) as Hext. split.
  - intros Hshared.
    assert (Hcached : instances st1 !! abstract = Some v1).
    { destruct (instances st !! abstract) as [w|] eqn:Hw.
      - destruct fuel as [|fuel]; [done|].
        rewrite (make_cached _ _ _ _ _ Hw) in Hfirst. by injection Hfirst as <- <-.
      - by apply (make_ok_resolved _ _ _ _ _ _ Hfirst). }
    destruct fuel' as [|fuel']; [done|].
    rewrite (make_cached _ _ _ _ _ Hcached) in Hsecond. by injection Hsecond as <- <-.
  - intros Hshared Hmiss Halloc.
    pose proof (extends_transient _ _ _ Hext Hshared Hmiss) as Hmiss1.
    destruct (make_allocates _ _ _ _ _ _ Hmiss Halloc Hfirst) as (n1 & -> & Hn1).
    rewrite <- (extends_getConcrete _ _ abstract Hext) in Halloc.
    destruct (make_allocates _ _ _ _ _ _ Hmiss1 Halloc Hsecond) as (n2 & -> & Hn2).
    intros [= ->]. lia.
Qed.

Lemma successive_makes_witness :
  (VRef 0 = VRef 0
   ∧ after 2 (AName "bar") ∅ (after 2 (AName "bar") ∅ shared_dependency)
     = after 2 (AName "bar") ∅ shared_dependency)
  ∧ VRef 1 ≠ VRef 0.
Proof.
  split.
  - apply (proj1 (successive_makes 2 2 (AName "bar") ∅ ∅ shared_dependency
                    (VRef 0) (after 2 (AName "bar") ∅ shared_dependency)
                    (VRef 0) (after 2 (AName "bar") ∅
                                (after 2 (AName "bar") ∅ shared_dependency))
                    ltac:(vm_compute; reflexivity) ltac:(vm_compute; reflexivity))).
    vm_compute. reflexivity.
  - apply (proj2 (successive_makes 2 2 (AName "bar") ∅ ∅ manual_bind
                    (VRef 0) (after 2 (AName "bar") ∅ manual_bind)
                    (VRef 1) (after 2 (AName "bar") ∅
                                (after 2 (AName "bar") ∅ manual_bind))
                    ltac:(vm_compute; reflexivity) ltac:(vm_compute; reflexivity))).
    + vm_compute. reflexivity.
    + vm_compute. reflexivity.
    + vm_compute. reflexivity.
Defined.

(** C6 (as stated, refuted).  Registering another instance for an
    identifier replaces its cache entry: after [instance(Foo, foo)] and
    then [instance(Foo, 'other')], [make(Foo)] returns ['other'], not the
    object the cache held first. *)
Lemma reregistered_instance_replaces_entry :
  instances registered !! AClass Foo = Some (VRef 0)
  ∧ make 1 (AClass Foo) ∅ (instance (AClass Foo) (VStr "other") registered)
    = Some (Ok (VStr "other"), instance (AClass Foo) (VStr "other") registered)
  ∧ VStr "other" ≠ VRef 0.
Proof. repeat split; try (vm_compute; reflexivity). discriminate. Qed.

Lemma op_keeps_entry a st st' v :
  op a st st' → instances st !! a = Some v → instances st' !! a = Some v.
Proof.
  intros Hop Hv. destruct Hop as [x c sh st|x c st|x w st Hne|fuel x P st r st' Hmake];
    simpl; try done.
  - by rewrite lookup_insert_ne.
  - eapply lookup_weaken; [exact Hv|]. eapply ext_instances, make_extends, Hmake.
Qed.

(** C6 (amended).  Once the cache holds an object for an identifier,
    every later [make] of that identifier, with any overrides, returns
    that object and changes nothing (so it constructs nothing), after any
    number of calls of [bind], [singleton] and [make] on any identifiers
    and of [instance] on other identifiers; only [instance] on the
    identifier itself replaces the entry. *)
Theorem cached_instance_persists a v st st' fuel parameters :
  instances st !! a = Some v →
  ops a st st' →
  make (S fuel) a parameters st' = Some (Ok v, st').
Proof.
  intros Hv Hops. apply make_cached.
  induction Hops as [st|st st' st'' Hop _ IH]; [done|].
  apply IH. by apply (op_keeps_entry a st).
Qed.

Lemma cached_instance_persists_witness :
  make 1 (AClass Foo) (<["x" := VStr "override"]> ∅)
    (bind (AClass Foo) (AClass Bar) true registered)
  = Some (Ok (VRef 0), bind (AClass Foo) (AClass Bar) true registered).
Proof.
  apply (cached_instance_persists (AClass Foo) (VRef 0) registered).
  - vm_compute. reflexivity.
  - eapply ops_more; [apply op_bind | apply ops_none].
Defined.

(** ** The claims about the container: resolution *)

(** Overrides are used as they are given, and the container is not
    consulted for them: whatever [make] would do, the parameters that
    have an override resolve to it and leave the state untouched. *)
Lemma property_own (parameters : gmap string Value) name v :
  parameters !! name = Some v → property parameters name = Some v.
Proof. intros Hv. unfold property. by rewrite Hv. Qed.

Lemma override_bypasses_container make_ parameters owner name index st v :
  parameters !! name = Some v →
  dependency make_ parameters owner name index st = Some (Ok v, st).
Proof. intros Hv. unfold dependency. by rewrite (property_own _ _ _ Hv). Qed.

Lemma bound_dependency_is_made make_ parameters owner name index st :
  property parameters name = None → has st (AName name) = true →
  dependency make_ parameters owner name index st = make_ (AName name) st.
Proof. intros Hv Hhas. unfold dependency. by rewrite Hv, Hhas. Qed.

Lemma missing_dependency_throws make_ parameters owner name index st :
  property parameters name = None → has st (AName name) = false →
  dependency make_ parameters owner name index st
  = Some (Threw (CannotResolve name index (name_of owner)), st).
Proof. intros Hv Hhas. unfold dependency. by rewrite Hv, Hhas. Qed.

(** The first parameter that has neither an override nor a binding or
    instance, after parameters that have overrides, is the one the error
    names. *)
Lemma dependencies_first_unresolved make_ parameters owner before values name later st :
  overridden parameters before values →
  property parameters name = None →
  has st (AName name) = false →
  ∀ index,
    dependencies make_ parameters owner (before ++ name :: later) index st
    = Some (Threw (CannotResolve name (index + length before) (name_of owner)), st).
Proof.
  intros Hover Hnone Hhas. revert values Hover.
  induction before as [|b before IH]; intros values Hover index.
  - simpl. rewrite (missing_dependency_throws _ _ _ _ _ _ Hnone Hhas).
    by rewrite Nat.add_0_r.
  - apply Forall2_cons_inv_l in Hover as (v & vs & Hv & Hvs & ->).
    simpl. rewrite (override_bypasses_container _ _ _ _ _ _ _ Hv).
    rewrite (IH vs Hvs (S index)). by rewrite Nat.add_succ_r.
Qed.

(** C2 (as stated, refuted).  ['nope'] is a string with no binding and no
    instance: [make('nope')] throws the type error of [new] applied to a
    string, which is not the error of an unresolved parameter. *)
Lemma unbound_name_is_not_a_constructor :
  has empty (AName "nope") = false
  ∧ make 1 (AName "nope") ∅ empty = Some (Threw NotAConstructor, empty)
  ∧ (∀ name index owner, NotAConstructor ≠ CannotResolve name index owner).
Proof. repeat split; try (vm_compute; reflexivity). discriminate. Qed.

(** C2 (amended).  For an identifier that is a string or a symbol, with
    no binding and no cached instance, [make] never returns an instance.
    When the text of the identifier declares no parameter list it throws
    the type error of [new] applied to a value that is not a constructor
    and leaves the state as it was.  When the text does declare one, and
    a name in it has neither an override nor a binding or instance while
    the names before it have overrides, it throws the error of an
    unresolved parameter for that name, with its position, and leaves
    the state as it was. *)
Theorem unbound_name_make_fails abstract parameters st :
  is_function abstract = false →
  bindings st !! abstract = None →
  instances st !! abstract = None →
  (∀ fuel r st', make fuel abstract parameters st = Some (r, st') →
                 ∃ e, r = Threw e)
  ∧ (getParamNames (toString abstract) = [] →
     ∀ fuel, make (S fuel) abstract parameters st = Some (Threw NotAConstructor, st))
  ∧ (∀ before values name later,
       getParamNames (toString abstract) = before ++ name :: later →
       overridden parameters before values →
       property parameters name = None →
       has st (AName name) = false →
       ∀ fuel, make (S fuel) abstract parameters st
               = Some (Threw (CannotResolve name (length before) "undefined"), st)).
Proof.
  intros Hfun Hunbound Hmiss.
  assert (Hconcrete : getConcrete st abstract = abstract).
  { unfold getConcrete. by rewrite Hunbound. }
  assert (Hbuildable : isBuildable abstract abstract = true).
  { unfold isBuildable. by rewrite bool_decide_eq_true_2. }
  assert (Hconstruct : ∀ deps s, construct abstract deps s = (Threw NotAConstructor, s)).
  { intros deps s. by destruct abstract. }
  assert (Hname : name_of abstract = "undefined") by (by destruct abstract).
  split; [|split].
  - intros [|fuel] r st'; [done|]. rewrite make_unfold by done.
    rewrite Hconcrete, Hbuildable. unfold build. rewrite Hfun. simpl.
    destruct (dependencies _ _ _ _ _ _) as [[[deps|e] st1]|]; [| |done].
    + rewrite Hconstruct. intros [= <- <-]. by eexists.
    + intros [= <- <-]. by eexists.
  - intros Hnames fuel. rewrite make_unfold by done.
    rewrite Hconcrete, Hbuildable. unfold build. rewrite Hfun, Hnames. simpl.
    by rewrite Hconstruct.
  - intros before values name later Hnames Hover Hnone Hhas fuel.
    rewrite make_unfold by done.
    rewrite Hconcrete, Hbuildable. unfold build. rewrite Hfun, Hnames. simpl.
    rewrite (dependencies_first_unresolved _ _ abstract _ values _ _ st Hover Hnone Hhas 0).
    by rewrite Hname.
Qed.

Lemma unbound_name_make_fails_witness :
  make 1 (ASymbol 7 "token") ∅ manual_bind = Some (Threw NotAConstructor, manual_bind)
  ∧ make 1 (AName "constructor(a)") ∅ manual_bind
    = Some (Threw (CannotResolve "a" 0 "undefined"), manual_bind).
Proof.
  split.
  - refine (proj1 (proj2 (unbound_name_make_fails (ASymbol 7 "token") ∅ manual_bind
                            _ _ _)) _ 0).
    + reflexivity.
    + vm_compute. reflexivity.
    + vm_compute. reflexivity.
    + vm_compute. reflexivity.
  - refine (proj2 (proj2 (unbound_name_make_fails (AName "constructor(a)") ∅ manual_bind
                            _ _ _)) [] [] "a" [] _ _ _ _ 0).
    + reflexivity.
    + vm_compute. reflexivity.
    + vm_compute. reflexivity.
    + vm_compute. reflexivity.
    + constructor.
    + vm_compute. reflexivity.
    + vm_compute. reflexivity.
Defined.

(** C3.  [Pair] declares [constructor(a, b)] and both ['a'] and ['b'] are
    bound.  [getParamNames] splits the parameter list at the commas and
    keeps the space before [b], so the second name it returns is [" b"]:
    neither the binding of ['b'] nor an override for [b] is found, and
    [make(Pair)] throws the error of an unresolved parameter. *)
Theorem second_parameter_name_keeps_its_space :
  getParamNames (cls_source Pair) = ["a"; " b"]
  ∧ has two_parameters (AName "a") = true
  ∧ has two_parameters (AName "b") = true
  ∧ make 3 (AClass Pair) ∅ two_parameters
    = Some (Threw (CannotResolve " b" 1 "Pair"), after 3 (AClass Pair) ∅ two_parameters)
  ∧ make 3 (AClass Pair) (<["b" := VStr "given"]> ∅) two_parameters
    = Some (Threw (CannotResolve " b" 1 "Pair"),
            after 3 (AClass Pair) (<["b" := VStr "given"]> ∅) two_parameters)
  ∧ make 3 (AClass Baz) ∅ manual_bind
    = Some (Ok (VRef 1), after 3 (AClass Baz) ∅ manual_bind).
Proof. repeat split; vm_compute; reflexivity. Qed.

End ContainerFacts.


(* ===================================================================== *)
(** * More about the container                                            *)
(* ===================================================================== *)

Module ContainerMore.
Import Container ContainerFacts.

Local Open Scope nat_scope.

(** ** Binding *)

(** [bind] registers or replaces the binding of one identifier and
    touches nothing else: afterwards the identifier resolves to the new
    producer with the new sharing mode, whatever was bound before, and
    every other binding, the cache and the resolved set are as they
    were. *)
Theorem bind_replaces_one_binding x concrete sh concrete0 sh0 st :
  let st' := bind x concrete sh (bind x concrete0 sh0 st) in
  getConcrete st' x = concrete
  ∧ isShared st' x = sh
  ∧ has st' x = true
  ∧ st' = bind x concrete sh st
  ∧ (∀ y, y ≠ x → getConcrete st' y = getConcrete st y
                   ∧ isShared st' y = isShared st y
                   ∧ has st' y = has st y)
  ∧ instances st' = instances st
  ∧ resolved st' = resolved st.
Proof.
  simpl. unfold getConcrete, isShared, has, bind, set_bindings. simpl.
  rewrite insert_insert_eq. split; [by rewrite lookup_insert_eq|].
  split; [by rewrite lookup_insert_eq|]. split.
  { apply orb_true_iff. left. apply bool_decide_eq_true.
    rewrite lookup_insert_eq. by eexists. }
  split; [done|]. split; [|done].
  intros y Hy. by rewrite !lookup_insert_ne.
Qed.

(** ** What no call of the interface undoes *)

Lemma api_keeps st st' :
  api st st' →
  resolved st ⊆ resolved st'
  ∧ (∀ x, has st x = true → has st' x = true)
  ∧ buildStack st' = buildStack st
  ∧ heap st `prefix_of` heap st'.
Proof.
  assert (Hbind : ∀ x c sh,
    resolved st ⊆ resolved (bind x c sh st)
    ∧ (∀ y, has st y = true → has (bind x c sh st) y = true)
    ∧ buildStack (bind x c sh st) = buildStack st
    ∧ heap st `prefix_of` heap (bind x c sh st)).
  { intros x c sh. repeat split; try done. intros y. unfold has. simpl.
    rewrite !orb_true_iff, !bool_decide_eq_true. intros [[b Hb]|Hi]; [|by right].
    left. destruct (decide (x = y)) as [->|Hne].
    - rewrite lookup_insert_eq. by eexists.
    - rewrite lookup_insert_ne by done. by eexists. }
  destruct 1 as [x c sh st|x c st|x v st|fuel x P st r st' Hmake].
  - apply Hbind.
  - apply Hbind.
  - repeat split; try done.
    + simpl. intros y Hy. by apply elem_of_union_r.
    + intros y. unfold has. simpl.
      rewrite !orb_true_iff, !bool_decide_eq_true. intros [Hb|[w Hw]]; [by left|].
      right. destruct (decide (x = y)) as [->|Hne].
      * rewrite lookup_insert_eq. by eexists.
      * rewrite lookup_insert_ne by done. by eexists.
  - pose proof (make_extends _ _ _ _ _ _ Hmake) as Hext. repeat split.
    + apply Hext.
    + intros y. by apply extends_has.
    + apply Hext.
    + apply Hext.
Qed.

(** Over any sequence of calls of [bind], [singleton], [instance] and
    [make]: the resolved set only grows, an identifier the container has
    is never lost, [buildStack] stays as it was, and the objects of the
    heap are never changed or removed. *)
Theorem interface_never_undoes st st' :
  rtc api st st' →
  resolved st ⊆ resolved st'
  ∧ (∀ x, has st x = true → has st' x = true)
  ∧ buildStack st' = buildStack st
  ∧ heap st `prefix_of` heap st'.
Proof.
  induction 1 as [st|st st1 st2 Hcall _ IH]; [done|].
  destruct (api_keeps _ _ Hcall) as (Hr & Hh & Hs & Hp).
  destruct IH as (Hr' & Hh' & Hs' & Hp').
  split; [by etrans|]. split; [auto|]. split; [congruence | by etrans].
Qed.

Lemma interface_never_undoes_witness :
  resolved manual_bind ⊆ resolved (instance (AName "x") (VStr "v") (after 3 (AClass Baz) ∅ manual_bind))
  ∧ (∀ x, has manual_bind x = true →
          has (instance (AName "x") (VStr "v") (after 3 (AClass Baz) ∅ manual_bind)) x = true)
  ∧ buildStack (instance (AName "x") (VStr "v") (after 3 (AClass Baz) ∅ manual_bind))
    = buildStack manual_bind
  ∧ heap manual_bind
    `prefix_of` heap (instance (AName "x") (VStr "v") (after 3 (AClass Baz) ∅ manual_bind)).
Proof.
  apply (interface_never_undoes manual_bind).
  eapply rtc_l; [|eapply rtc_l; [apply api_instance | apply rtc_refl]].
  apply (api_make 3 (AClass Baz) ∅ manual_bind (Ok (VRef 1))).
  vm_compute. reflexivity.
Defined.

(** ** Building a class *)

(** A class that declares no constructor parameters is built without
    any binding: [make] of the class itself, unbound and not cached,
    returns a new object with no arguments at every call, whatever the
    overrides, and changes nothing but the heap and the resolved set. *)
Theorem class_without_parameters_builds c parameters st fuel :
  starts_as_class (cls_source c) = true →
  getParamNames (cls_source c) = [] →
  bindings st !! AClass c = None →
  instances st !! AClass c = None →
  make (S fuel) (AClass c) parameters st
  = Some (Ok (VRef (length (heap st))),
          set_resolved ({[AClass c]} ∪ resolved st) (alloc (cls_name c) [] st).2).
Proof.
  intros Hclass Hnames Hunbound Hmiss. rewrite make_unfold by done.
  unfold getConcrete, isShared. rewrite Hunbound.
  unfold isBuildable. rewrite bool_decide_eq_true_2 by done. simpl.
  unfold build. simpl. rewrite Hclass, Hnames. simpl.
  by rewrite Hunbound.
Qed.

Lemma class_without_parameters_builds_witness :
  make 1 (AClass Foo) (<["x" := VStr "unused"]> ∅) empty
  = Some (Ok (VRef 0),
          set_resolved ({[AClass Foo]} ∪ resolved empty) (alloc "Foo" [] empty).2).
Proof.
  apply (class_without_parameters_builds Foo _ empty 0); reflexivity.
Defined.

Lemma dependencies_overridden make_ parameters owner names :
  ∀ values index st,
    overridden parameters names values →
    dependencies make_ parameters owner names index st = Some (Ok values, st).
Proof.
  induction names as [|name names IH]; intros values index st Hover.
  - by apply Forall2_nil_inv_l in Hover as ->.
  - apply Forall2_cons_inv_l in Hover as (v & vs & Hv & Hvs & ->).
    simpl. unfold dependency. rewrite (property_own _ _ _ Hv). by rewrite (IH vs).
Qed.

(** When the overrides give a value for every parameter name of a class,
    [make] builds it from those values, in parameter order, without
    resolving anything: one level of calls is enough, no binding or
    instance of those names is consulted, and nothing but the new object
    is added to the heap. *)
Theorem overrides_for_every_parameter abstract c parameters values st fuel :
  instances st !! abstract = None →
  getConcrete st abstract = AClass c →
  starts_as_class (cls_source c) = true →
  overridden parameters (getParamNames (cls_source c)) values →
  ∃ st', make (S fuel) abstract parameters st = Some (Ok (VRef (length (heap st))), st')
         ∧ heap st' = heap st ++ [mkObject (cls_name c) values]
         ∧ bindings st' = bindings st
         ∧ (∀ k, k ≠ abstract → instances st' !! k = instances st !! k).
Proof.
  intros Hmiss Hconcrete Hclass Hover. rewrite make_unfold by done.
  rewrite Hconcrete. unfold isBuildable. simpl. rewrite orb_true_r.
  unfold build. simpl. rewrite Hclass. simpl.
  rewrite (dependencies_overridden _ _ _ _ values) by done. simpl.
  eexists. split; [reflexivity|].
  destruct (isShared _ abstract); simpl; repeat split; try done.
  intros k Hk. by rewrite lookup_insert_ne.
Qed.

Lemma overrides_for_every_parameter_witness :
  ∃ st', make 1 (AClass Pair) (<["a" := VStr "x"]> (<[" b" := VStr "y"]> ∅)) two_parameters
         = Some (Ok (VRef 0), st')
         ∧ heap st' = heap two_parameters ++ [mkObject "Pair" [VStr "x"; VStr "y"]]
         ∧ bindings st' = bindings two_parameters
         ∧ (∀ k, k ≠ AClass Pair → instances st' !! k = instances two_parameters !! k).
Proof.
  apply (overrides_for_every_parameter (AClass Pair) Pair _ [VStr "x"; VStr "y"]
           two_parameters 0).
  - vm_compute. reflexivity.
  - vm_compute. reflexivity.
  - vm_compute. reflexivity.
  - unfold overridden.
    replace (getParamNames (cls_source Pair)) with ["a"; " b"] by (vm_compute; reflexivity).
    repeat constructor; vm_compute; reflexivity.
Defined.

(** The error of an unresolved parameter names the first parameter that
    has neither an override nor a binding or instance, with its position
    in the parameter list and the name of the class; overrides before it
    leave no trace and the state is as it was. *)
Theorem first_unresolved_parameter_is_reported
    abstract c parameters before values name later st fuel :
  instances st !! abstract = None →
  getConcrete st abstract = AClass c →
  starts_as_class (cls_source c) = true →
  getParamNames (cls_source c) = before ++ name :: later →
  overridden parameters before values →
  property parameters name = None →
  has st (AName name) = false →
  make (S fuel) abstract parameters st
  = Some (Threw (CannotResolve name (length before) (cls_name c)), st).
Proof.
  intros Hmiss Hconcrete Hclass Hnames Hover Hnone Hhas.
  rewrite make_unfold by done.
  rewrite Hconcrete. unfold isBuildable. simpl. rewrite orb_true_r.
  unfold build. simpl. rewrite Hclass, Hnames. simpl.
  by rewrite (dependencies_first_unresolved _ _ (AClass c) _ values _ _ st Hover Hnone Hhas 0).
Qed.

Lemma first_unresolved_parameter_is_reported_witness :
  make 1 (AClass Pair) (<["a" := VStr "x"]> ∅) two_parameters
  = Some (Threw (CannotResolve " b" 1 "Pair"), two_parameters).
Proof.
  apply (first_unresolved_parameter_is_reported (AClass Pair) Pair _ ["a"] [VStr "x"]
           " b" [] two_parameters 0).
  - vm_compute. reflexivity.
  - vm_compute. reflexivity.
  - vm_compute. reflexivity.
  - vm_compute. reflexivity.
  - unfold overridden. repeat constructor; vm_compute; reflexivity.
  - vm_compute. reflexivity.
  - vm_compute. reflexivity.
Defined.

(** Overrides reach only the constructor parameters of a class built at
    the top level: when the identifier resolves to a factory, or is an
    alias of another identifier, [make] does the same with and without
    them. *)
Theorem overrides_ignored_by_factories_and_aliases abstract parameters st fuel :
  (is_function (getConcrete st abstract) && negb (isClass (getConcrete st abstract)) = true
   ∨ isBuildable (getConcrete st abstract) abstract = false) →
  make fuel abstract parameters st = make fuel abstract ∅ st.
Proof.
  intros Hkind. destruct fuel as [|fuel]; [done|]. simpl.
  destruct (instances st !! abstract); [done|].
  destruct Hkind as [Hfactory| ->]; [|done].
  unfold build. by rewrite Hfactory.
Qed.

Lemma overrides_ignored_by_factories_and_aliases_witness :
  make 2 (AName "foo") (<["x" := VStr "y"]> ∅)
    (bind (AName "foo") (AFactory (mkFactory 1 (Const (VStr "hello")))) false empty)
  = make 2 (AName "foo") ∅
    (bind (AName "foo") (AFactory (mkFactory 1 (Const (VStr "hello")))) false empty).
Proof.
  apply overrides_ignored_by_factories_and_aliases.
  left. vm_compute. reflexivity.
Defined.

(** ** Reading parameter names *)

Lemma take_to_without c s : ∀ r, take_to c s = Some r → has_char c r = false.
Proof.
  induction s as [|a s IH]; intros r; simpl; [done|].
  destruct (Ascii.eqb a c) eqn:Hac; [by intros [= <-]|].
  destruct (take_to c s) as [r'|]; [|done].
  intros [= <-]. simpl. rewrite Hac. by apply IH.
Qed.

Lemma split_without c d s :
  (d = c ∨ has_char d s = false) →
  ∀ piece, piece ∈ split c s → has_char d piece = false.
Proof.
  induction s as [|a s IH]; intros Hd piece; simpl.
  - by intros ->%list_elem_of_singleton.
  - assert (Hd' : d = c ∨ has_char d s = false).
    { destruct Hd as [->|Hd]; [by left|]. simpl in Hd.
      apply orb_false_iff in Hd as [_ Hd]. by right. }
    destruct (Ascii.eqb a c) eqn:Hac.
    + intros [->|Hin]%elem_of_cons; [done | by apply IH].
    + assert (Had : Ascii.eqb a d = false).
      { destruct Hd as [->|Hd]; [done|]. simpl in Hd.
        by apply orb_false_iff in Hd as [Hd _]. }
      destruct (split c s) as [|p ps] eqn:Hsplit.
      * intros ->%list_elem_of_singleton. simpl. by rewrite Had.
      * intros [->|Hin]%elem_of_cons.
        -- simpl. rewrite Had. simpl. apply IH; [done | by left].
        -- apply IH; [done | by right].
Qed.

(** [getParamNames] never returns an empty name, and no name it returns
    contains a comma or a closing parenthesis; each is shorter than the
    text it was read from. *)
Theorem parameter_names_are_pieces fnStr name :
  name ∈ getParamNames fnStr →
  name ≠ EmptyString
  ∧ has_char ","%char name = false
  ∧ has_char ")"%char name = false
  ∧ String.length name < String.length fnStr.
Proof.
  intros Hin. split; [|split; [|split]].
  - unfold getParamNames in Hin. destruct (argsMatch fnStr); [|by apply elem_of_nil in Hin].
    apply list_elem_of_filter in Hin as [Htruthy _]. by destruct name.
  - unfold getParamNames in Hin. destruct (argsMatch fnStr); [|by apply elem_of_nil in Hin].
    apply list_elem_of_filter in Hin as [_ Hin].
    eapply split_without; [by left | exact Hin].
  - unfold getParamNames, argsMatch in Hin.
    destruct (after_first "constructor" fnStr) as [r1|]; [|by apply elem_of_nil in Hin].
    destruct (skip_to "(" r1) as [r2|]; [|by apply elem_of_nil in Hin].
    destruct (take_to ")" (drop_spaces r2)) as [group|] eqn:Hgroup;
      [|by apply elem_of_nil in Hin].
    apply list_elem_of_filter in Hin as [_ Hin].
    eapply split_without; [right; by eapply take_to_without | exact Hin].
  - by apply getParamNames_shorter.
Qed.

Lemma parameter_names_are_pieces_witness :
  " b" ≠ EmptyString
  ∧ has_char ","%char " b" = false
  ∧ has_char ")"%char " b" = false
  ∧ String.length " b" < String.length (cls_source Pair).
Proof.
  apply (parameter_names_are_pieces (cls_source Pair) " b").
  vm_compute. right. left.
Defined.

Lemma append_nil (t : string) : EmptyString +:+ t = t.
Proof. reflexivity. Qed.

Lemma append_cons a (s t : string) : String a s +:+ t = String a (s +:+ t).
Proof. reflexivity. Qed.

Lemma append_assoc (s t u : string) : (s +:+ t) +:+ u = s +:+ t +:+ u.
Proof.
  induction s as [|a s IH]; [done|]. by rewrite !append_cons, IH.
Qed.

Lemma length_append (s t : string) :
  String.length (s +:+ t) = String.length s + String.length t.
Proof.
  induction s as [|a s IH]; [done|]. rewrite append_cons. simpl. by rewrite IH.
Qed.

Lemma strip_prefix_append p r : strip_prefix p (p +:+ r) = Some r.
Proof.
  induction p as [|a p IH]; [done|]. rewrite append_cons. simpl.
  by rewrite Ascii.eqb_refl.
Qed.

Lemma strip_prefix_none_append p :
  ∀ s t, strip_prefix p s = None → String.length p ≤ String.length s →
         strip_prefix p (s +:+ t) = None.
Proof.
  induction p as [|a p IH]; intros s t; simpl; [done|].
  destruct s as [|b s]; [simpl; lia|]. rewrite append_cons. simpl.
  destruct (Ascii.eqb a b); [|done]. intros Hnone Hlen. apply IH; [done | lia].
Qed.

Lemma after_first_here p s r : strip_prefix p s = Some r → after_first p s = Some r.
Proof. intros H. destruct s; simpl; by rewrite H. Qed.

Lemma append_last w z r : (w +:+ String z EmptyString) +:+ r = w +:+ String z r.
Proof. by rewrite append_assoc, append_cons, append_nil. Qed.

(** The leftmost occurrence of a word [w ++ [z]] that follows a text in
    which, even with [w] appended, the word does not occur. *)
Lemma after_first_found w z pre r :
  after_first (w +:+ String z EmptyString) (pre +:+ w) = None →
  after_first (w +:+ String z EmptyString) (pre +:+ w +:+ String z r) = Some r.
Proof.
  induction pre as [|c pre IH]; intros Hnone.
  - apply after_first_here. rewrite append_nil, <- (append_last w z r).
    apply strip_prefix_append.
  - rewrite append_cons in *. simpl in Hnone. simpl.
    destruct (strip_prefix _ (String c (pre +:+ w))) eqn:Hstrip; [done|].
    assert (Hnone' : strip_prefix (w +:+ String z EmptyString)
                       (String c (pre +:+ w +:+ String z r)) = None).
    { replace (String c (pre +:+ w +:+ String z r))
        with (String c (pre +:+ w) +:+ String z r)
        by (by rewrite append_cons, append_assoc).
      apply strip_prefix_none_append; [done|].
      simpl. rewrite !length_append. simpl. lia. }
    rewrite Hnone'. by apply IH.
Qed.

Lemma take_to_append c s rest :
  has_char c s = false → take_to c (s +:+ String c rest) = Some s.
Proof.
  induction s as [|a s IH]; [rewrite append_nil | rewrite append_cons]; simpl.
  - by rewrite Ascii.eqb_refl.
  - intros [Hac Hs]%orb_false_iff. rewrite Hac, IH; done.
Qed.

Lemma split_whole c s : has_char c s = false → split c s = [s].
Proof.
  induction s as [|a s IH]; simpl; [done|].
  intros [Hac Hs]%orb_false_iff. by rewrite Hac, IH.
Qed.

Lemma split_append c s rest :
  has_char c s = false → split c (s +:+ String c rest) = s :: split c rest.
Proof.
  induction s as [|a s IH]; [rewrite append_nil | rewrite append_cons]; simpl.
  - by rewrite Ascii.eqb_refl.
  - intros [Hac Hs]%orb_false_iff. by rewrite Hac, IH.
Qed.

Lemma split_join names :
  Forall plain_name names → names ≠ [] → split "," (join "," names) = names.
Proof.
  induction 1 as [|name names Hname Hnames IH]; intros Hne; [done|].
  destruct Hname as (_ & Hcomma & _).
  destruct names as [|name' names].
  - simpl. by apply split_whole.
  - change (join "," (name :: name' :: names))
      with (name +:+ String "," (join "," (name' :: names))).
    rewrite split_append by done. by rewrite IH.
Qed.

Lemma join_without_parenthesis names :
  Forall plain_name names → has_char ")" (join "," names) = false.
Proof.
  assert (Happ : ∀ s t, has_char ")" (s +:+ t) = has_char ")" s || has_char ")" t).
  { intros s t. induction s as [|a s IH]; [done|].
    rewrite append_cons. simpl. by rewrite IH, orb_assoc. }
  induction 1 as [|name names Hname Hnames IH]; [done|].
  destruct Hname as (_ & _ & Hparen & _).
  destruct names as [|name' names]; [done|].
  change (join "," (name :: name' :: names))
    with (name +:+ String "," (join "," (name' :: names))).
  rewrite Happ, Hparen. simpl. exact IH.
Qed.

Lemma drop_spaces_plain name rest :
  plain_name name → drop_spaces (name +:+ rest) = name +:+ rest.
Proof.
  intros (Hne & _ & _ & Hdrop). destruct name as [|a name]; [done|].
  rewrite append_cons. simpl in *. destruct (is_space a); [|done].
  exfalso. pose proof (drop_spaces_length name) as Hlen.
  rewrite Hdrop in Hlen. simpl in Hlen. lia.
Qed.

(** A parameter list written without white space is read back as it was
    declared: for names that are not empty, contain no comma or closing
    parenthesis and do not start with white space, the text of a class
    whose constructor declares them, separated by commas, gives exactly
    those names in that order, whatever follows the parameter list. *)
Theorem parameter_names_read_back pre names rest :
  after_first "constructor" (pre +:+ "constructo") = None →
  Forall plain_name names →
  getParamNames (pre +:+ "constructor(" +:+ join "," names +:+ ")" +:+ rest) = names.
Proof.
  intros Hpre Hnames. unfold getParamNames, argsMatch.
  change ("constructor(" +:+ join "," names +:+ ")" +:+ rest)
    with ("constructo" +:+ String "r" ("(" +:+ join "," names +:+ ")" +:+ rest)).
  rewrite (after_first_found "constructo" "r" pre _ Hpre).
  simpl skip_to. rewrite append_nil. cbv beta iota.
  assert (Hdrop : drop_spaces (join "," names +:+ ")" +:+ rest)
                  = join "," names +:+ ")" +:+ rest).
  { destruct names as [|name names]; [done|].
    apply Forall_cons in Hnames as [Hname _].
    destruct names as [|name' names].
    - simpl join. by apply drop_spaces_plain.
    - change (join "," (name :: name' :: names))
        with (name +:+ String "," (join "," (name' :: names))).
      rewrite append_assoc. by apply drop_spaces_plain. }
  rewrite Hdrop.
  change (")" +:+ rest) with (String ")" rest).
  rewrite take_to_append by (by apply join_without_parenthesis).
  destruct names as [|name names]; [done|].
  rewrite split_join by done.
  clear Hdrop Hpre. induction Hnames as [|n ns Hn Hns IH]; [done|].
  rewrite filter_cons. destruct Hn as (Hne & _).
  rewrite decide_True by (by destruct n). by rewrite IH.
Qed.

Lemma parameter_names_read_back_witness :
  getParamNames ("class Point { " +:+ "constructor(" +:+ join "," ["x"; "y"] +:+ ")"
                   +:+ "{ this.x = x; this.y = y; } }")
  = ["x"; "y"].
Proof.
  apply (parameter_names_read_back "class Point { " ["x"; "y"]).
  - vm_compute. reflexivity.
  - repeat constructor; first [discriminate | vm_compute; reflexivity].
Defined.

(** ** Aliases, injected instances, and what [isClass] takes for a class *)

(** An identifier bound to another identifier that is not a function is
    an alias: when the target has a cached instance, [make] of the alias
    returns that instance, records the alias as resolved, and caches the
    instance under the alias exactly when the alias binding is shared. *)
Theorem alias_resolves_to_cached_target abstract target sh v parameters st fuel :
  bindings st !! abstract = Some (mkConcrete target sh) →
  target ≠ abstract →
  is_function target = false →
  instances st !! abstract = None →
  instances st !! target = Some v →
  ∃ st', make (S (S fuel)) abstract parameters st = Some (Ok v, st')
         ∧ instances st' !! abstract = (if sh then Some v else None)
         ∧ abstract ∈ resolved st'
         ∧ heap st' = heap st.
Proof.
  intros Hbound Hne Hfun Hmiss Hcached. rewrite make_unfold by done.
  assert (Hconcrete : getConcrete st abstract = target).
  { unfold getConcrete. by rewrite Hbound. }
  assert (Halias : isBuildable target abstract = false).
  { unfold isBuildable. rewrite bool_decide_eq_false_2 by done. by rewrite Hfun. }
  assert (Hshared : isShared st abstract = sh).
  { unfold isShared. by rewrite Hbound. }
  rewrite Hconcrete, Halias, (make_cached _ _ _ _ _ Hcached), Hshared.
  eexists. split; [reflexivity|]. destruct sh; simpl.
  - rewrite lookup_insert_eq. split; [done|]. split; [|done].
    apply elem_of_union_l. by apply elem_of_singleton.
  - rewrite Hmiss. split; [done|]. split; [|done].
    apply elem_of_union_l. by apply elem_of_singleton.
Qed.

Lemma alias_resolves_to_cached_target_witness :
  ∃ st', make 2 (AName "logger") ∅
           (bind (AName "logger") (AName "log") true
              (instance (AName "log") (VStr "the log") empty))
         = Some (Ok (VStr "the log"), st')
         ∧ instances st' !! AName "logger" = (if true then Some (VStr "the log") else None)
         ∧ AName "logger" ∈ resolved st'
         ∧ heap st' = heap (bind (AName "logger") (AName "log") true
                              (instance (AName "log") (VStr "the log") empty)).
Proof.
  apply (alias_resolves_to_cached_target (AName "logger") (AName "log") true
           (VStr "the log") ∅ _ 0).
  - vm_compute. reflexivity.
  - discriminate.
  - reflexivity.
  - vm_compute. reflexivity.
  - vm_compute. reflexivity.
Defined.

Lemma dependencies_registered make_ parameters owner names :
  ∀ values index st,
    (∀ name, name ∈ names → property parameters name = None) →
    registered_as st names values →
    (∀ name v, instances st !! AName name = Some v →
               make_ (AName name) st = Some (Ok v, st)) →
    dependencies make_ parameters owner names index st = Some (Ok values, st).
Proof.
  induction names as [|name names IH]; intros values index st Hnone Hreg Hmake.
  - by apply Forall2_nil_inv_l in Hreg as ->.
  - apply Forall2_cons_inv_l in Hreg as (v & vs & Hv & Hvs & ->).
    simpl. unfold dependency. rewrite (Hnone name) by (by left).
    assert (Hhas : has st (AName name) = true).
    { unfold has. apply orb_true_iff. right. apply bool_decide_eq_true. by eexists. }
    rewrite Hhas, (Hmake name v Hv).
    rewrite (IH vs); [done| |done|done].
    intros n Hn. apply Hnone. by right.
Qed.

(** Constructor parameters are injected from registered instances by
    name: when an instance is registered under every parameter name of a
    class and none is overridden, [make] passes exactly those instances
    to the constructor, in parameter order, and builds nothing else. *)
Theorem instances_are_injected_by_name abstract c parameters values st fuel :
  instances st !! abstract = None →
  getConcrete st abstract = AClass c →
  starts_as_class (cls_source c) = true →
  (∀ name, name ∈ getParamNames (cls_source c) → property parameters name = None) →
  registered_as st (getParamNames (cls_source c)) values →
  ∃ st', make (S (S fuel)) abstract parameters st
         = Some (Ok (VRef (length (heap st))), st')
         ∧ heap st' = heap st ++ [mkObject (cls_name c) values].
Proof.
  intros Hmiss Hconcrete Hclass Hnone Hreg. rewrite make_unfold by done.
  rewrite Hconcrete. unfold isBuildable. simpl. rewrite orb_true_r.
  unfold build. simpl. rewrite Hclass. simpl.
  rewrite (dependencies_registered _ _ _ _ values); [|done|done|].
  - simpl. eexists. split; [reflexivity|]. by destruct (isShared _ abstract).
  - intros name v Hv. by apply make_cached.
Qed.

Lemma instances_are_injected_by_name_witness :
  ∃ st', make 2 (AClass Baz) ∅ (instance (AName "bar") (VStr "a bar") empty)
         = Some (Ok (VRef (length (heap (instance (AName "bar") (VStr "a bar") empty)))), st')
         ∧ heap st' = heap (instance (AName "bar") (VStr "a bar") empty)
                        ++ [mkObject "Baz" [VStr "a bar"]].
Proof.
  apply (instances_are_injected_by_name (AClass Baz) Baz ∅ [VStr "a bar"] _ 0).
  - vm_compute. reflexivity.
  - vm_compute. reflexivity.
  - vm_compute. reflexivity.
  - replace (getParamNames (cls_source Baz)) with ["bar"] by (vm_compute; reflexivity).
    intros name Hname. apply list_elem_of_singleton in Hname as ->.
    vm_compute. reflexivity.
  - unfold registered_as.
    replace (getParamNames (cls_source Baz)) with ["bar"] by (vm_compute; reflexivity).
    repeat constructor.
Defined.

(** The record of overrides is an ordinary object, so a parameter named
    like a member of [Object.prototype] is never resolved: when the
    parameters of a class are all so named and none is an own property
    of the overrides, [make] passes the members of [Object.prototype] to
    the constructor, whatever is bound or registered under those names,
    and consults the container for none of them. *)
Theorem inherited_members_are_injected abstract c parameters st fuel :
  instances st !! abstract = None →
  getConcrete st abstract = AClass c →
  starts_as_class (cls_source c) = true →
  Forall (inherited parameters) (getParamNames (cls_source c)) →
  ∃ st', make (S fuel) abstract parameters st
         = Some (Ok (VRef (length (heap st))), st')
         ∧ heap st' = heap st
                        ++ [mkObject (cls_name c) (VNative <$> getParamNames (cls_source c))]
         ∧ bindings st' = bindings st
         ∧ (∀ k, k ≠ abstract → instances st' !! k = instances st !! k).
Proof.
  intros Hmiss Hconcrete Hclass Hnames. rewrite make_unfold by done.
  rewrite Hconcrete. unfold isBuildable. simpl. rewrite orb_true_r.
  unfold build. simpl. rewrite Hclass. simpl.
  assert (Hdeps : ∀ names index,
            Forall (inherited parameters) names →
            dependencies (λ a, make fuel a ∅) parameters (AClass c) names index st
            = Some (Ok (VNative <$> names), st)).
  { induction names as [|name names IH]; intros index Hall; [done|].
    apply Forall_cons in Hall as [[Hown Hname] Hall].
    simpl. unfold dependency, property. rewrite Hown.
    rewrite bool_decide_eq_true_2 by done. by rewrite (IH (S index) Hall). }
  rewrite (Hdeps _ 0 Hnames). simpl. eexists. split; [reflexivity|].
  destruct (isShared _ abstract); simpl; repeat split; try done.
  intros k Hk. by rewrite lookup_insert_ne.
Qed.

Lemma inherited_members_are_injected_witness :
  has registered_toString (AName "toString") = true
  ∧ ∃ st', make 1 (AClass Text) ∅ registered_toString
           = Some (Ok (VRef (length (heap registered_toString))), st')
           ∧ heap st' = heap registered_toString
                          ++ [mkObject "Text" (VNative <$> getParamNames (cls_source Text))]
           ∧ bindings st' = bindings registered_toString
           ∧ (∀ k, k ≠ AClass Text →
                   instances st' !! k = instances registered_toString !! k).
Proof.
  split; [vm_compute; reflexivity|].
  apply (inherited_members_are_injected (AClass Text) Text ∅ registered_toString 0).
  - vm_compute. reflexivity.
  - vm_compute. reflexivity.
  - vm_compute. reflexivity.
  - replace (getParamNames (cls_source Text)) with ["toString"] by (vm_compute; reflexivity).
    repeat constructor.
Defined.

(** [isClass] takes for a class only a text that starts with the word
    [class] followed by white space.  A class whose text starts
    otherwise is called like a factory, without [new]: [make] throws the
    type error of that call and changes nothing. *)
Theorem class_not_recognised_is_called abstract c parameters st fuel :
  instances st !! abstract = None →
  getConcrete st abstract = AClass c →
  starts_as_class (cls_source c) = false →
  make (S fuel) abstract parameters st = Some (Threw (ClassCallError (cls_name c)), st).
Proof.
  intros Hmiss Hconcrete Hclass. rewrite make_unfold by done.
  rewrite Hconcrete. unfold isBuildable. simpl. rewrite orb_true_r.
  unfold build. simpl. by rewrite Hclass.
Qed.

Lemma class_not_recognised_is_called_witness :
  make 1 (AClass (mkClass 9 "Tiny" "class{constructor(a){}}")) ∅ empty
  = Some (Threw (ClassCallError "Tiny"), empty).
Proof.
  apply (class_not_recognised_is_called _ (mkClass 9 "Tiny" "class{constructor(a){}}")).
  - vm_compute. reflexivity.
  - vm_compute. reflexivity.
  - vm_compute. reflexivity.
Defined.

End ContainerMore.


(* ===================================================================== *)
(** * More about the pipeline                                             *)
(* ===================================================================== *)

Module PipelineMore.
Import Pipeline PipelineFacts.

Section Run.
Context {T : Type}.
Implicit Types (rest pipes : list (Pipe T)) (s : RunState) (v : T) (i : Z).

Lemma dispatch_within rest :
  ∀ i v s, 0 ≤ i →
    within (i + Z.of_nat (length rest)) s →
    within (i + Z.of_nat (length rest)) (snd (dispatch rest i v s)).
Proof.
  induction rest as [|pipe rest IH]; intros i v s Hi Hs.
  - simpl. destruct (Z.leb_spec i (index s)); [done|].
    destruct Hs as [_ Hall]. split; simpl; [lia | done].
  - destruct (Z.leb_spec i (index s)) as [Hle|Hlt].
    { by rewrite dispatch_guard. }
    set (n := i + Z.of_nat (length (pipe :: rest))) in *.
    assert (Hn : n = (i + 1) + Z.of_nat (length rest)) by (unfold n; simpl; lia).
    destruct (dispatch_state pipe rest i v s Hlt) as (b & k & _ & _ & ->).
    apply settle_keeps.
    + intros w s0. rewrite Hn. apply IH. lia.
    + destruct Hs as [_ Hall]. split; simpl; [lia|].
      apply Forall_app. split; [|done].
      apply Forall_forall. intros j Hj. apply elem_of_replicate in Hj. lia.
Qed.

(** Whatever the pipes do, a run never reads past the end of the list:
    the highest index it reaches lies between 0 and the number of pipes,
    and every pipe it enters sits at a position of the list. *)
Theorem run_stays_within_pipes pipes v :
  0 ≤ index (snd (run pipes v)) ≤ Z.of_nat (length pipes)
  ∧ Forall (λ j, 0 ≤ j < Z.of_nat (length pipes)) (entered (snd (run pipes v))).
Proof.
  unfold run.
  destruct (dispatch_within pipes 0 v initial) as [Hupper Hall]; [lia| |].
  { split; simpl; [lia | constructor]. }
  pose proof (proj2 (dispatch_index pipes 0 v initial)) as Hlower.
  simpl in Hlower. split; [|done]. split; [lia|]. simpl in Hupper. lia.
Qed.

(** What a pipe of the shape [sh] makes of the outcome of its body. *)
Lemma dispatch_shape sh (h : T → Step T) rest i v s :
  index s < i →
  ∃ s0, index s0 = i ∧
    dispatch (pipe_of sh h :: rest) i v s
    = match settle (dispatch rest (i + 1)) (body_of (h v)) s0 with
      | (Resolved w, s2) => (Resolved w, s2)
      | (Rejected e, s2) =>
          (Rejected (match sh with AsClass name => ClassCallError name | _ => e end), s2)
      end.
Proof.
  intros Hlt. destruct sh as [| |name]; cbn [pipe_of].
  - exists (enter i (set_index i s)). rewrite dispatch_fn by done.
    split; [done|]. by destruct (settle _ _ _) as [[w|e] s2].
  - exists (enter i (enter i (set_index i s))). rewrite dispatch_plain by done.
    split; [done|]. by destruct (settle _ _ _) as [[w|e] s2].
  - exists (enter i (set_index i s)). by rewrite dispatch_class by done.
Qed.

Lemma dispatch_until_stop (ps : list (Shape * (T → Step T))) sh w rest :
  ∀ i v s, index s < i →
    ∃ s', dispatch (pipes_of ps ++ pipe_of sh (λ _, Stop w) :: rest) i v s
          = (Resolved (chain (map snd ps ++ [λ _, Stop w]) v), s')
          ∧ index s' ≤ i + Z.of_nat (length ps).
Proof.
  induction ps as [|[sh' h] ps IH]; intros i v s Hlt.
  - cbn [pipes_of map app].
    destruct (dispatch_shape sh (λ _, Stop w) rest i v s Hlt) as (s0 & Hs0 & ->).
    exists s0. simpl. split; [done | lia].
  - cbn [pipes_of map app fst snd]. fold (pipes_of ps).
    destruct (dispatch_shape sh' h (pipes_of ps ++ pipe_of sh (λ _, Stop w) :: rest)
                i v s Hlt) as (s0 & Hs0 & ->).
    simpl chain. destruct (h v) as [u|u after] eqn:Hh; simpl.
    + exists s0. split; [done | lia].
    + destruct (IH (i + 1) u s0 ltac:(lia)) as (s' & -> & Hidx).
      exists s'. split; [done | lia].
Qed.

(** A pipe that returns without calling its continuation ends the run:
    when the pipes before it do not raise, the run returns what they
    make of its value, and no pipe declared after it is entered,
    whatever those pipes are. *)
Theorem pipes_after_a_stop_are_not_entered
    (ps : list (Shape * (T → Step T))) sh w rest v :
  thenReturn (pipes_of ps ++ pipe_of sh (λ _, Stop w) :: rest) v
  = Resolved (chain (map snd ps ++ [λ _, Stop w]) v)
  ∧ Forall (λ j, j ≤ Z.of_nat (length ps))
      (entered (snd (run (pipes_of ps ++ pipe_of sh (λ _, Stop w) :: rest) v))).
Proof.
  unfold thenReturn.
  assert (Hordered : ordered (snd (run (pipes_of ps ++ pipe_of sh (λ _, Stop w) :: rest) v))).
  { apply dispatch_ordered. split; constructor. }
  destruct Hordered as [_ Hall]. revert Hall. unfold run.
  destruct (dispatch_until_stop ps sh w rest 0 v initial)
    as (s' & -> & Hidx); [simpl; lia|].
  simpl. intros Hall. split; [done|].
  eapply Forall_impl; [exact Hall|]. simpl. lia.
Qed.

Lemma dispatch_function_chain (fs : list (T → T)) e rest :
  ∀ i v s, index s < i →
    ∃ s', dispatch (pipes_of (map (λ f, (AsFunction, forward f)) fs)
                      ++ FnPipe (λ _, Throw e) :: rest) i v s
          = (Rejected e, s')
          ∧ index s' ≤ i + Z.of_nat (length fs).
Proof.
  induction fs as [|f fs IH]; intros i v s Hlt.
  - exists (enter i (set_index i s)). cbn [pipes_of map app].
    rewrite dispatch_fn by done. simpl. split; [done | lia].
  - destruct (IH (i + 1) (f v) (enter i (set_index i s)) ltac:(simpl; lia))
      as (s' & Heq & Hidx).
    exists s'. split; [|simpl; lia].
    cbn [pipes_of map pipe_of fst snd app].
    rewrite dispatch_fn by done.
    fold (pipes_of (map (λ f, (AsFunction, forward f)) fs)).
    set (tail := pipes_of _ ++ _) in *.
    unfold forward. cbn [body_of settle]. by rewrite Heq.
Qed.

(** Through function-shaped pipes an error reaches the caller as it was
    thrown: when a function-shaped pipe throws after function-shaped
    pipes that forward, the run rejects with that very error, and no
    pipe declared after the one that threw is entered. *)
Theorem function_pipes_pass_the_error_on (fs : list (T → T)) e rest v :
  thenReturn (pipes_of (map (λ f, (AsFunction, forward f)) fs)
                ++ FnPipe (λ _, Throw e) :: rest) v
  = Rejected e
  ∧ Forall (λ j, j ≤ Z.of_nat (length fs))
      (entered (snd (run (pipes_of (map (λ f, (AsFunction, forward f)) fs)
                           ++ FnPipe (λ _, Throw e) :: rest) v))).
Proof.
  unfold thenReturn.
  assert (Hordered : ordered (snd (run (pipes_of (map (λ f, (AsFunction, forward f)) fs)
                                        ++ FnPipe (λ _, Throw e) :: rest) v))).
  { apply dispatch_ordered. split; constructor. }
  destruct Hordered as [_ Hall]. revert Hall. unfold run.
  destruct (dispatch_function_chain fs e rest 0 v initial)
    as (s' & -> & Hidx); [simpl; lia|].
  simpl. intros Hall. split; [done|].
  eapply Forall_impl; [exact Hall|]. simpl. lia.
Qed.

End Run.

End PipelineMore.


(* ===================================================================== *)
(** * Properties of the application                                       *)
(* ===================================================================== *)

Module ApplicationFacts.
Import Container ContainerFacts ContainerMore Application.

Local Open Scope nat_scope.

(** ** The base bindings *)

(** A new application resolves to itself: [make('app')] and
    [make(Container)] return the application object, [make(Logger)] and
    [make(Emitter)] return the two objects its constructor created, all
    from the cache, with any overrides and without building anything;
    the three objects are different. *)
Theorem application_resolves_itself cls path heap0 fuel parameters :
  NoDup [ContainerClass cls; LoggerClass cls; EmitterClass cls] →
  let app := new_Application cls path heap0 in
  let n := length heap0 in
  this app = VRef n
  ∧ heap (container app)
    = heap0 ++ [mkObject "Application" []; mkObject "Logger" [VStr "./storage/"];
                mkObject "Emitter" []]
  ∧ make (S fuel) (AName "app") parameters (container app)
    = Some (Ok (VRef n), container app)
  ∧ make (S fuel) (AClass (ContainerClass cls)) parameters (container app)
    = Some (Ok (VRef n), container app)
  ∧ make (S fuel) (AClass (LoggerClass cls)) parameters (container app)
    = Some (Ok (VRef (S n)), container app)
  ∧ make (S fuel) (AClass (EmitterClass cls)) parameters (container app)
    = Some (Ok (VRef (S (S n))), container app).
Proof.
  intros Hdistinct app n.
  apply NoDup_cons in Hdistinct as [Hc Hdistinct].
  apply NoDup_cons in Hdistinct as [Hl _].
  assert (Hcl : ContainerClass cls ≠ LoggerClass cls)
    by (intros Heq; apply Hc; rewrite Heq; by left).
  assert (Hce : ContainerClass cls ≠ EmitterClass cls)
    by (intros Heq; apply Hc; rewrite Heq; right; by left).
  assert (Hle : LoggerClass cls ≠ EmitterClass cls)
    by (intros Heq; apply Hl; rewrite Heq; by left).
  assert (Hinstances : instances (container app)
    = <[AClass (EmitterClass cls) := VRef (S (S n))]>
        (<[AClass (LoggerClass cls) := VRef (S n)]>
           (<[AClass (ContainerClass cls) := VRef n]>
              (<[AName "app" := VRef n]> ∅)))).
  { unfold app, new_Application, registerBaseBindings, n. simpl.
    rewrite !length_app. simpl.
    replace (length heap0 + 1) with (S (length heap0)) by lia.
    by replace (S (length heap0) + 1) with (S (S (length heap0))) by lia. }
  split; [done|]. split.
  { unfold app, new_Application, registerBaseBindings. simpl.
    by rewrite <- !app_assoc. }
  repeat split; apply make_cached; rewrite Hinstances.
  - rewrite !lookup_insert_ne by done. apply lookup_insert_eq.
  - rewrite !lookup_insert_ne by congruence. apply lookup_insert_eq.
  - rewrite lookup_insert_ne by congruence. apply lookup_insert_eq.
  - apply lookup_insert_eq.
Qed.

Lemma application_resolves_itself_witness :
  let cls := mkClasses Foo Bar Baz in
  let app := new_Application cls (Some "/srv") [] in
  this app = VRef 0
  ∧ heap (container app)
    = [] ++ [mkObject "Application" []; mkObject "Logger" [VStr "./storage/"];
             mkObject "Emitter" []]
  ∧ make 1 (AName "app") ∅ (container app) = Some (Ok (VRef 0), container app)
  ∧ make 1 (AClass Foo) ∅ (container app) = Some (Ok (VRef 0), container app)
  ∧ make 1 (AClass Bar) ∅ (container app) = Some (Ok (VRef 1), container app)
  ∧ make 1 (AClass Baz) ∅ (container app) = Some (Ok (VRef 2), container app).
Proof.
  apply (application_resolves_itself (mkClasses Foo Bar Baz) (Some "/srv") [] 0 ∅).
  repeat constructor; rewrite ?elem_of_cons, ?elem_of_nil; intros H;
    repeat (destruct H as [H|H]; try discriminate); done.
Defined.

(** ** Providers *)

Lemma api_stack st st' : api st st' → buildStack st' = buildStack st.
Proof. intros H. by destruct (api_keeps _ _ H) as (_ & _ & ? & _). Qed.

Lemma app_api_adds_no_provider app app' :
  app_api app app' →
  serviceProviders app = ∅ ∧ loadedProviders app = ∅
  ∧ booted app = false ∧ buildStack (container app) = [] →
  serviceProviders app' = ∅ ∧ loadedProviders app' = ∅
  ∧ booted app' = false ∧ buildStack (container app') = [].
Proof.
  intros Hcall (Hs & Hl & Hb & Hk).
  destruct Hcall as [app st' Hapi|p f app r app' Hreg|app].
  - simpl. by rewrite (api_stack _ _ Hapi).
  - unfold register, getProvider in Hreg. rewrite Hs, lookup_empty in Hreg.
    by injection Hreg as <- <-.
  - done.
Qed.

(** Nothing in the public interface adds a service provider.  After any
    sequence of public calls on a new application the provider table is
    still empty, so [register] throws the error of an unregistered
    provider for every name, with or without [force], and changes
    nothing; the application never reports itself booted, and
    [buildStack] is empty. *)
Theorem register_always_throws cls path heap0 app provider force :
  rtc app_api (new_Application cls path heap0) app →
  register provider force app = (Threw (UnregisteredProvider provider), app)
  ∧ getProvider app provider = None
  ∧ loadedProviders app = ∅
  ∧ isBooted app = false
  ∧ buildStack (container app) = [].
Proof.
  intros Hreach.
  assert (Hinv : serviceProviders app = ∅ ∧ loadedProviders app = ∅
                 ∧ booted app = false ∧ buildStack (container app) = []).
  { assert (Hstart :
              serviceProviders (new_Application cls path heap0) = ∅
              ∧ loadedProviders (new_Application cls path heap0) = ∅
              ∧ booted (new_Application cls path heap0) = false
              ∧ buildStack (container (new_Application cls path heap0)) = []).
    { unfold new_Application, registerBaseBindings, alloc. simpl. done. }
    revert Hstart.
    induction Hreach as [app|app app1 app2 Hcall _ IH]; [done|].
    intros Hstart. apply IH. by eapply app_api_adds_no_provider. }
  destruct Hinv as (Hs & Hl & Hb & Hk).
  unfold register, getProvider, isBooted. rewrite Hs, lookup_empty. done.
Qed.

Lemma register_always_throws_witness :
  let app := flush (set_container
                      (bind (AName "bar") (AClass Bar) false
                         (container (new_Application (mkClasses Foo Bar Baz) None [])))
                      (new_Application (mkClasses Foo Bar Baz) None [])) in
  register "events" true app = (Threw (UnregisteredProvider "events"), app)
  ∧ getProvider app "events" = None
  ∧ loadedProviders app = ∅
  ∧ isBooted app = false
  ∧ buildStack (container app) = [].
Proof.
  apply (register_always_throws (mkClasses Foo Bar Baz) None []).
  eapply rtc_l; [apply app_container, api_bind|].
  eapply rtc_l; [apply app_flush | apply rtc_refl].
Defined.

(** ** Flushing *)

Section Restack.
Variable stack : list Abstract.
Variable make_ : Abstract → State → Comp Value.
Variable parameters : gmap string Value.
Hypothesis make_restack_ :
  ∀ a st, make_ a (set_buildStack stack st) = restack stack (make_ a st).

Lemma dependencies_restack owner names :
  ∀ index st,
    dependencies make_ parameters owner names index (set_buildStack stack st)
    = restack stack (dependencies make_ parameters owner names index st).
Proof.
  induction names as [|name names IH]; intros index st; [done|].
  cbn [dependencies].
  assert (Hdep : dependency make_ parameters owner name index (set_buildStack stack st)
                 = restack stack (dependency make_ parameters owner name index st)).
  { unfold dependency. destruct (property parameters name); [done|].
    change (has (set_buildStack stack st) (AName name)) with (has st (AName name)).
    destruct (has st (AName name)); [apply make_restack_ | done]. }
  rewrite Hdep.
  destruct (dependency make_ parameters owner name index st) as [[[v|e] st1]|];
    [|done|done].
  cbn [restack]. rewrite IH.
  by destruct (dependencies make_ parameters owner names (S index) st1)
    as [[[vs|e] st2]|].
Qed.

Lemma build_restack concrete st :
  build make_ parameters concrete (set_buildStack stack st)
  = restack stack (build make_ parameters concrete st).
Proof.
  unfold build. destruct (is_function concrete && negb (isClass concrete)).
  - destruct concrete as [n|i d|c|f]; try done.
    simpl. by destruct (fac_recipe f).
  - rewrite dependencies_restack.
    destruct (dependencies make_ parameters concrete _ 0 st) as [[[deps|e] st1]|];
      [|done|done].
    by destruct concrete.
Qed.
End Restack.

Lemma make_restack stack fuel :
  ∀ abstract parameters st,
    make fuel abstract parameters (set_buildStack stack st)
    = restack stack (make fuel abstract parameters st).
Proof.
  induction fuel as [|fuel IH]; intros abstract parameters st; [done|].
  cbn [make].
  change (instances (set_buildStack stack st)) with (instances st).
  destruct (instances st !! abstract) as [v|]; [done|].
  change (getConcrete (set_buildStack stack st) abstract) with (getConcrete st abstract).
  destruct (isBuildable (getConcrete st abstract) abstract).
  - rewrite build_restack by (intros a s; apply IH).
    destruct (build _ parameters (getConcrete st abstract) st) as [[[v|e] st1]|];
      [|done|done].
    cbn [restack].
    change (isShared (set_buildStack stack st1) abstract) with (isShared st1 abstract).
    by destruct (isShared st1 abstract).
  - rewrite IH.
    destruct (make fuel (getConcrete st abstract) ∅ st) as [[[v|e] st1]|];
      [|done|done].
    cbn [restack].
    change (isShared (set_buildStack stack st1) abstract) with (isShared st1 abstract).
    by destruct (isShared st1 abstract).
Qed.

(** [flush] evicts nothing.  It empties [buildStack] only: every binding,
    every cached instance and the resolved set are as before, and every
    [make] after it returns or throws exactly what it would have without
    it. *)
Theorem flush_evicts_nothing app :
  bindings (container (flush app)) = bindings (container app)
  ∧ instances (container (flush app)) = instances (container app)
  ∧ resolved (container (flush app)) = resolved (container app)
  ∧ heap (container (flush app)) = heap (container app)
  ∧ (∀ x, has (container (flush app)) x = has (container app) x)
  ∧ (∀ fuel abstract parameters,
       make fuel abstract parameters (container (flush app))
       = restack [] (make fuel abstract parameters (container app))).
Proof.
  repeat split. intros fuel abstract parameters. apply make_restack.
Qed.

End ApplicationFacts.


(* ===================================================================== *)
(** * Properties of the logger                                            *)
(* ===================================================================== *)

Module LoggerFacts.
Import Logger.

Local Open Scope nat_scope.

Lemma shaped_cons as_object b bodies :
  shaped as_object (b :: bodies)
  = (if as_object 0%nat then ObjectPipe b else FnPipe b)
      :: shaped (as_object ∘ S) bodies.
Proof. reflexivity. Qed.

(** The shape of a pipe does not matter to [dispatch]. *)
Lemma dispatch_shaped_cons as_object b bodies a w :
  dispatch (shaped as_object (b :: bodies)) a w
  = settle (dispatch (shaped (as_object ∘ S) bodies)) (b a) w.
Proof. rewrite shaped_cons. by destruct (as_object 0%nat). Qed.

(** Pipes that forward: one line is written, for the payload as they
    changed it; the object they were given carries the changes made in
    place before the first copy, and no other object that existed
    before is touched. *)
Lemma dispatch_forwarders fs :
  ∀ as_object a store out, a < free store →
    ∃ store',
      dispatch (shaped as_object (forwarders fs)) a (store, out)
      = (None, (store', out ++ [line (applied fs (cell store a))]))
      ∧ cell store' a = applied (in_place_prefix fs) (cell store a)
      ∧ free store ≤ free store'
      ∧ ∀ b, b < free store → b ≠ a → cell store' b = cell store b.
Proof.
  induction fs as [|[in_place f] fs IH]; intros as_object a store out Ha.
  - exists store. by repeat split.
  - cbn [forwarders map]. fold (forwarders fs).
    rewrite dispatch_shaped_cons. cbn [fst snd forwarder settle].
    destruct in_place; cbn [settle create fst snd].
    + destruct (IH (as_object ∘ S) a (assign a (f (cell store a)) store) out Ha)
        as (store' & -> & Hcell & Hfree & Hframe).
      cbn [finish settle]. exists store'.
      assert (Hnew : cell (assign a (f (cell store a)) store) a = f (cell store a)).
      { simpl. by rewrite Nat.eqb_refl. }
      rewrite Hnew in *. split; [done|]. split; [done|]. split; [done|].
      intros b Hb Hne. rewrite (Hframe b Hb Hne). simpl.
      by rewrite (proj2 (Nat.eqb_neq b a) Hne).
    + set (store1 := mkStore _ _).
      assert (Hnew : cell store1 (free store) = f (cell store a)).
      { simpl. by rewrite Nat.eqb_refl. }
      destruct (IH (as_object ∘ S) (free store) store1 out ltac:(simpl; lia))
        as (store' & -> & Hcell & Hfree & Hframe).
      cbn [finish settle]. exists store'. rewrite Hnew.
      assert (Hold : ∀ b, b < free store → cell store' b = cell store b).
      { intros b Hb. rewrite (Hframe b) by (simpl; lia). simpl.
        by rewrite (proj2 (Nat.eqb_neq b (free store))) by lia. }
      split; [done|]. split; [by apply Hold|]. split; [simpl in Hfree; lia|].
      intros b Hb _. by apply Hold.
Qed.

(** A pipe that throws after pipes that forward. *)
Lemma dispatch_forwarders_fail fs e later :
  ∀ as_object a store out,
    ∃ store',
      dispatch (shaped as_object (forwarders fs ++ (λ _, Fail e) :: later)) a (store, out)
      = (Some e, (store', out)).
Proof.
  induction fs as [|[in_place f] fs IH]; intros as_object a store out.
  - cbn [forwarders map app]. rewrite dispatch_shaped_cons. by exists store.
  - cbn [forwarders map app]. fold (forwarders fs).
    rewrite dispatch_shaped_cons. cbn [fst snd forwarder settle].
    destruct in_place; cbn [settle create fst snd].
    + destruct (IH (as_object ∘ S) a (assign a (f (cell store a)) store) out)
        as (store' & ->).
      by exists store'.
    + set (store1 := mkStore _ _).
      destruct (IH (as_object ∘ S) (free store) store1 out) as (store' & ->).
      by exists store'.
Qed.

(** A log entry goes through the pipes in declared order and is written
    once: when every pipe forwards, [log] writes exactly one line, the
    one of the payload as the pipes changed it, first pipe first,
    whether the pipes are functions or objects and whether they change
    the payload in place or pass on a copy; without pipes and without
    context the line is the time stamp, the level in capitals and the
    message. *)
Theorem log_writes_one_line :
  (∀ as_object (fs : list (bool * (LogPayload → LogPayload))) lvl msg ctx now out,
     log (shaped as_object (forwarders fs)) lvl msg ctx now out
     = (None, out ++ [line (applied fs (entry lvl msg ctx now))]))
  ∧ (∀ lvl msg now out,
       log [] lvl msg None now out
       = (None, out ++ ["[" +:+ now +:+ "] " +:+ toUpperCase lvl +:+ ": " +:+ msg
                        +:+ newline])).
Proof.
  split; [|reflexivity].
  intros as_object fs lvl msg ctx now out. unfold log. cbn [create free].
  set (store := mkStore _ _).
  destruct (dispatch_forwarders fs as_object 0 store out ltac:(simpl; lia))
    as (store' & -> & _).
  simpl. done.
Qed.

(** The logger passes errors on as they are, for both shapes of pipe:
    when a pipe throws after pipes that forward, [log] rejects with that
    very error and nothing is written. *)
Theorem log_passes_the_error_on
    as_object (fs : list (bool * (LogPayload → LogPayload))) e later lvl msg ctx now out :
  log (shaped as_object (forwarders fs ++ (λ _, Fail e) :: later)) lvl msg ctx now out
  = (Some e, out).
Proof.
  unfold log. cbn [create free]. set (store := mkStore _ _).
  by destruct (dispatch_forwarders_fail fs e later as_object 0 store out) as (store' & ->).
Qed.

(** The logger does not count the calls of a continuation, and the
    payload it passes on is one object.  A pipe that calls [next] twice
    with the payload it received has the entry written twice, and the
    second line carries once more the changes that the later pipes made
    in place during the first pass; with a new object at each call the
    two lines are those of the two objects as the later pipes change
    them.  A pipe that returns without calling [next] has nothing
    written. *)
Theorem log_repeats_and_drops
    as_object (fs : list (bool * (LogPayload → LogPayload))) lvl msg ctx now out :
  log (shaped as_object (again :: forwarders fs)) lvl msg ctx now out
  = (None, out ++ [line (applied fs (entry lvl msg ctx now));
                   line (applied fs (applied (in_place_prefix fs) (entry lvl msg ctx now)))])
  ∧ (∀ p1 p2,
       log (shaped as_object (two_entries p1 p2 :: forwarders fs)) lvl msg ctx now out
       = (None, out ++ [line (applied fs p1); line (applied fs p2)]))
  ∧ (∀ later, log (shaped as_object ((λ _, Done) :: later)) lvl msg ctx now out
              = (None, out)).
Proof.
  split; [|split].
  - unfold log. cbn [create free]. set (store := mkStore _ _).
    rewrite dispatch_shaped_cons. unfold again. cbn [settle].
    destruct (dispatch_forwarders fs (as_object ∘ S) 0 store out ltac:(simpl; lia))
      as (store1 & -> & Hcell & Hfree & _).
    cbn [settle].
    destruct (dispatch_forwarders fs (as_object ∘ S) 0 store1
                (out ++ [line (applied fs (cell store 0))]) ltac:(simpl in Hfree; lia))
      as (store2 & -> & _).
    cbn [finish settle snd]. rewrite Hcell, <- app_assoc. done.
  - intros p1 p2. unfold log. cbn [create free]. set (store := mkStore _ _).
    rewrite dispatch_shaped_cons. unfold two_entries. cbn [settle create fst snd].
    set (store1 := mkStore _ _).
    assert (H1 : cell store1 (free store) = p1) by (simpl; done).
    destruct (dispatch_forwarders fs (as_object ∘ S) (free store) store1 out
                ltac:(simpl; lia)) as (store2 & -> & _ & Hfree & _).
    cbn [settle create fst snd]. set (store3 := mkStore _ _).
    assert (H2 : cell store3 (free store2) = p2).
    { simpl. by rewrite Nat.eqb_refl. }
    destruct (dispatch_forwarders fs (as_object ∘ S) (free store2) store3
                (out ++ [line (applied fs (cell store1 (free store)))])
                ltac:(simpl; lia)) as (store4 & -> & _).
    cbn [finish settle snd]. rewrite H1, H2, <- app_assoc. done.
  - intros later. unfold log. cbn [create free].
    by rewrite dispatch_shaped_cons.
Qed.

End LoggerFacts.
